(** * Robots, keys and doors: a shallow embedding of [run2.py]

    The development follows the source file top-down: the value types
    ([Point], [Path], [State], [FieldState]), the class [Field] with its
    constructor, its adjacency generator and its nearest-key search, and
    finally the top-level [solve] loop.

    Python integers are unbounded, hence [Z].  Python sets and dicts are
    [gset] and [gmap].  A Python exception is an explicit [Raise] outcome.
    The grid is a list of rows of one-character strings, as [main] builds
    it with [list(line.strip())]; a cell is an [ascii] character. *)

From Stdlib Require Import ZArith Ascii String Lia.
From stdpp Require Import gmap strings list fin_maps fin_sets sorting.

Local Open Scope Z_scope.

Set Warnings "-clear-no-such-hyp".

(** ** Exceptions and outcomes *)

Inductive exn : Set :=
| KeyError
| IndexError
| TypeError.

(** A computation returns, raises, or is cut short because the fuel given
    to a [while] loop was used up before the loop ended. *)
Inductive outcome (A : Type) : Type :=
| Ok (a : A)
| Raise (e : exn)
| OutOfFuel.

Arguments Ok {A} a.
Arguments Raise {A} e.
Arguments OutOfFuel {A}.

Definition bind {A B : Type} (m : outcome A) (k : A → outcome B) : outcome B :=
  match m with
  | Ok a => k a
  | Raise e => Raise e
  | OutOfFuel => OutOfFuel
  end.

Notation "x ←! m ; k" := (bind m (λ x, k))
  (at level 100, m at next level, right associativity,
   format "x  ←!  m ;  '/' k").

Definition raises {A : Type} (m : outcome A) : Prop :=
  ∃ e, m = Raise e.

(** [for a in l: st = body(a, st)], stopping at the first exception. *)
Fixpoint for_each {A S : Type} (body : A → S → outcome S) (l : list A) (st : S)
  : outcome S :=
  match l with
  | [] => Ok st
  | a :: l' => st' ←! body a st; for_each body l' st'
  end.

(** [enumerate(l)] *)
Definition enumerate {A : Type} (l : list A) : list (Z * A) :=
  imap (λ i a, (Z.of_nat i, a)) l.

(** ** [Point] and [Path] *)

Module Point.

Record t : Set := mk { x : Z; y : Z }.

Definition zero : t := mk 0 0.

#[global] Instance eq_dec : EqDecision t.
Proof. solve_decision. Defined.

#[global] Instance countable : Countable t.
Proof.
  apply (inj_countable' (λ p, (x p, y p)) (λ q, mk (fst q) (snd q))).
  by intros [].
Defined.

End Point.

Abbreviation Point := Point.t.

Module Path.

Record t : Set := mk { length : Z; start : Point; end_ : Point }.

End Path.

Abbreviation Path := Path.t.

(** ** [FieldState]: the frozen pair of sets used for deduplication *)

Module FieldState.

Record t : Type := mk { robots : gset Point; keys : gset Point }.

#[global] Instance eq_dec : EqDecision t.
Proof. solve_decision. Defined.

#[global] Instance countable : Countable t.
Proof.
  apply (inj_countable' (λ s, (robots s, keys s)) (λ q, mk (fst q) (snd q))).
  by intros [].
Defined.

End FieldState.

Abbreviation FieldState := FieldState.t.

(** ** [Field] *)

(** [Field.Element] *)
Inductive Element : Set :=
| EMPTY
| WALL
| DOOR
| KEY
| ROBOT.

Definition is_key_char (c : ascii) : bool :=
  (97 <=? nat_of_ascii c)%nat && (nat_of_ascii c <=? 122)%nat.

Definition is_door_char (c : ascii) : bool :=
  (65 <=? nat_of_ascii c)%nat && (nat_of_ascii c <=? 90)%nat.

(** [str.lower()] on a one-character ASCII string. *)
Definition lower (c : ascii) : ascii :=
  if is_door_char c then ascii_of_nat (nat_of_ascii c + 32) else c.

(** [Field.Element.from_string]: the lookup table [Field._values] holds the
    26 lowercase letters, the 26 uppercase letters and the three
    punctuation characters; any other character is a [KeyError].  The
    table is filled on the first call and never changes afterwards, so the
    lookup is a function of the character alone. *)
Definition from_string (value : ascii) : outcome Element :=
  if is_key_char value then Ok KEY
  else if is_door_char value then Ok DOOR
  else if Ascii.eqb value "." then Ok EMPTY
  else if Ascii.eqb value "#" then Ok WALL
  else if Ascii.eqb value "@" then Ok ROBOT
  else Raise KeyError.

(** The attributes of a [Field] instance, by value. *)
Record Field : Type := mkField {
  _robots : gset Point;
  _keys : gset Point;
  doors_keys : gmap Point Point;
  doors : gset Point;
  walls : gset Point;
  x_max_value : Z;
  y_max_value : Z
}.

#[global] Instance Field_eq_dec : EqDecision Field.
Proof. solve_decision. Defined.

Definition keys_count (self : Field) : Z := Z.of_nat (size (_keys self)).

Definition robots (self : Field) : gset Point := _robots self.

Definition with_sets (self : Field) (rs ks : gset Point) : Field :=
  mkField rs ks (doors_keys self) (doors self) (walls self)
          (x_max_value self) (y_max_value self).

(** *** [Field.get_neighbors] *)

Definition directions : list (Z * Z) := [(0, 1); (1, 0); (0, -1); (-1, 0)].

(** The guard of the [if] inside the loop, with Python's short-circuit
    evaluation: [doors_keys[neighbor]] is looked up only when every earlier
    conjunct holds and [neighbor] is in [doors]. *)
Definition admits (self : Field) (neighbor : Point) : outcome bool :=
  if bool_decide (0 < Point.x neighbor ∧ Point.x neighbor < x_max_value self)
     && bool_decide (0 < Point.y neighbor ∧ Point.y neighbor < y_max_value self)
     && bool_decide (neighbor ∉ _robots self)
     && bool_decide (neighbor ∉ walls self)
  then
    if bool_decide (neighbor ∉ doors self) then Ok true
    else match doors_keys self !! neighbor with
         | None => Raise KeyError
         | Some k => Ok (bool_decide (k ∉ _keys self))
         end
  else Ok false.

Definition shift (position : Point) (d : Z * Z) : Point :=
  Point.mk (Point.x position + fst d) (Point.y position + snd d).

Fixpoint neighbors_along (self : Field) (position : Point) (ds : list (Z * Z))
  : outcome (list Point) :=
  match ds with
  | [] => Ok []
  | d :: ds' =>
      let neighbor := shift position d in
      b ←! admits self neighbor;
      rest ←! neighbors_along self position ds';
      Ok (if b : bool then neighbor :: rest else rest)
  end.

(** The generator, consumed to exhaustion. *)
Definition get_neighbors (self : Field) (position : Point) : outcome (list Point) :=
  neighbors_along self position directions.

(** *** [Field.collect_key], [Field.copy], [Field.dump] on values

    [set.remove] raises [KeyError] when the element is absent. *)

Definition set_remove (s : gset Point) (p : Point) : outcome (gset Point) :=
  if decide (p ∈ s) then Ok (s ∖ {[p]}) else Raise KeyError.

Definition set_add (s : gset Point) (p : Point) : gset Point := s ∪ {[p]}.

Definition collect_key (self : Field) (robot_position key_position : Point)
  : outcome Field :=
  rs ←! set_remove (_robots self) robot_position;
  let rs := set_add rs key_position in
  ks ←! set_remove (_keys self) key_position;
  Ok (with_sets self rs ks).

Definition copy (self : Field) : Field :=
  mkField (_robots self) (_keys self) (doors_keys self) (doors self)
          (walls self) (x_max_value self) (y_max_value self).

Definition dump (self : Field) : FieldState :=
  FieldState.mk (_robots self) (_keys self).

(** *** The constructor *)

(** The cells in the order the two nested [enumerate] loops visit them. *)
Definition cells (data : list (list ascii)) : list (Point * ascii) :=
  concat (map (λ yr : Z * list ascii,
                 map (λ xe : Z * ascii, (Point.mk xe.1 yr.1, xe.2))
                     (enumerate yr.2))
              (enumerate data)).

(** Body of the first pair of loops; the second component is the local
    dict [keys]. *)
Definition place (cell : Point * ascii) (st : Field * gmap ascii Point)
  : outcome (Field * gmap ascii Point) :=
  let '(self, keys) := st in
  let '(p, element) := cell in
  new_element ←! from_string element;
  match new_element with
  | KEY =>
      Ok (mkField (_robots self) (set_add (_keys self) p) (doors_keys self)
                  (doors self) (walls self) (x_max_value self) (y_max_value self),
          <[element := p]> keys)
  | DOOR =>
      Ok (mkField (_robots self) (_keys self) (doors_keys self)
                  (set_add (doors self) p) (walls self)
                  (x_max_value self) (y_max_value self), keys)
  | ROBOT =>
      Ok (mkField (set_add (_robots self) p) (_keys self) (doors_keys self)
                  (doors self) (walls self) (x_max_value self) (y_max_value self),
          keys)
  | WALL =>
      Ok (mkField (_robots self) (_keys self) (doors_keys self)
                  (doors self) (set_add (walls self) p)
                  (x_max_value self) (y_max_value self), keys)
  | EMPTY => Ok st
  end.

(** Body of the second pair of loops. *)
Definition link (keys : gmap ascii Point) (cell : Point * ascii) (self : Field)
  : outcome Field :=
  let '(p, element) := cell in
  new_element ←! from_string element;
  match new_element with
  | DOOR =>
      match keys !! lower element with
      | None => Raise KeyError
      | Some k =>
          Ok (mkField (_robots self) (_keys self) (<[p := k]> (doors_keys self))
                      (doors self) (walls self)
                      (x_max_value self) (y_max_value self))
      end
  | _ => Ok self
  end.

Definition _initialize_field (self : Field) (data : list (list ascii))
  : outcome Field :=
  st ←! for_each place (cells data) (self, ∅);
  for_each (link st.2) (cells data) st.1.

(** [Field(data)] *)
Definition Field_init (data : list (list ascii)) : outcome Field :=
  match data with
  | [] => Raise IndexError
  | row0 :: _ =>
      _initialize_field
        (mkField ∅ ∅ ∅ ∅ ∅ (Z.of_nat (length row0) - 1)
                 (Z.of_nat (length data) - 1))
        data
  end.

(** *** [Field.get_nearest_key] *)

(** Body of the [for neighbor in ...] loop. *)
Definition discover (current_position neighbor : Point)
    (st : gmap Point Z * list Point) : outcome (gmap Point Z * list Point) :=
  if decide (is_Some (st.1 !! neighbor)) then Ok st
  else match st.1 !! current_position with
       | None => Raise KeyError
       | Some d => Ok (<[neighbor := d + 1]> st.1, st.2 ++ [neighbor])
       end.

Fixpoint bfs_loop (fuel : nat) (self : Field) (robot_position : Point)
    (distance : gmap Point Z) (queue : list Point) : outcome (option Path) :=
  match fuel with
  | O => OutOfFuel
  | S fuel' =>
      match queue with
      | [] => Ok None
      | current_position :: queue' =>
          if decide (current_position ∈ _keys self) then
            match distance !! current_position with
            | None => Raise KeyError
            | Some d => Ok (Some (Path.mk d robot_position current_position))
            end
          else
            ns ←! get_neighbors self current_position;
            st ←! for_each (discover current_position) ns (distance, queue');
            bfs_loop fuel' self robot_position st.1 st.2
      end
  end.

(** Every cell the search can enqueue lies strictly inside the bounds, so
    the loop body runs at most once per interior cell, once for the start
    and once more to see the empty queue. *)
Definition bfs_fuel (self : Field) : nat :=
  S (S (Z.to_nat (x_max_value self - 1) * Z.to_nat (y_max_value self - 1))).

Definition get_nearest_key (self : Field) (robot_position : Point)
  : outcome (option Path) :=
  bfs_loop (bfs_fuel self) self robot_position
           {[robot_position := 0]} [robot_position].

(** ** [solve] *)

Record State : Type := mkState { field : Field; steps : Z }.

(** The objects [result] is bound to during [solve]: an [int], or the
    [float] object created by a call of [float("inf")].  Each such call
    builds a new object; [o] names the object so that the identity test
    [is] of the last line can be modelled. *)
Inductive value : Set :=
| Float_inf (o : nat)
| Int (n : Z).

(** The float objects a value keeps alive. *)
Definition referenced (v : value) : gset nat :=
  match v with
  | Float_inf o => {[o]}
  | Int _ => ∅
  end.

(** [float("inf")]: a new object, distinct from every live one. *)
Definition new_float_inf (live : gset nat) : value := Float_inf (fresh live).

(** [a is b], for [b] a float object. *)
Definition is_ (a b : value) : bool :=
  match a, b with
  | Float_inf o, Float_inf o' => bool_decide (o = o')
  | _, _ => false
  end.

(** [min(result, steps)] with [steps] an [int]: the second argument is
    returned when it is strictly smaller, the first one otherwise; every
    [int] is smaller than infinity. *)
Definition py_min (result : value) (steps : Z) : value :=
  match result with
  | Float_inf _ => Int steps
  | Int r => if decide (steps < r) then Int steps else Int r
  end.

(** [result if result is not float("inf") else 0] *)
Definition final_result (result : value) : value :=
  if negb (is_ result (new_float_inf (referenced result))) then result
  else Int 0.

(** The local variables of the [while] loop. *)
Record loop : Type := mkLoop {
  states : list State;
  visited : gset FieldState;
  result : value
}.

Section Solve.

(** Iterating over a Python [set] visits its elements in an order fixed
    by the hash table behind it.  [order n s] is the order in which the
    [n]-th iteration of the [while] loop sees the robots [s]. *)
Variable order : nat → gset Point → list Point.

(** Body of [for robot in state.field.robots]. *)
Definition expand (state : State) (robot : Point) (l : loop) : outcome loop :=
  path ←! get_nearest_key (field state) robot;
  match path with
  | None => Ok l
  | Some path =>
      let new_field := copy (field state) in
      new_field ←! collect_key new_field (Path.start path) (Path.end_ path);
      let dump := dump new_field in
      if decide (dump ∉ visited l) then
        Ok (mkLoop
              (states l ++ [mkState new_field (steps state + Path.length path)])
              (visited l ∪ {[dump]})
              (result l))
      else Ok l
  end.

(** Body of the [while] loop, after [state = states.popleft()]; [l] holds
    the remaining queue. *)
Definition body (n : nat) (state : State) (l : loop) : outcome loop :=
  if decide (keys_count (field state) = 0) then
    Ok (mkLoop (states l) (visited l) (py_min (result l) (steps state)))
  else
    for_each (expand state) (order n (robots (field state))) l.

Fixpoint solve_loop (fuel n : nat) (l : loop) : outcome value :=
  match fuel with
  | O => OutOfFuel
  | S fuel' =>
      match states l with
      | [] => Ok (result l)
      | state :: states' =>
          l' ←! body n state (mkLoop states' (visited l) (result l));
          solve_loop fuel' (S n) l'
      end
  end.

Definition initial_loop (self : Field) : loop :=
  mkLoop [mkState self 0] ∅ (new_float_inf ∅).

Definition solve (fuel : nat) (data : list (list ascii)) : outcome value :=
  self ←! Field_init data;
  result ←! solve_loop fuel 0 (initial_loop self);
  Ok (final_result result).

End Solve.

(** The iteration orders a set can have: every element once. *)
Definition set_order (order : nat → gset Point → list Point) : Prop :=
  ∀ n s, order n s ≡ₚ elements s.

(** Rows of a grid from text lines. *)
Definition grid (lines : list string) : list (list ascii) :=
  map list_ascii_of_string lines.

(** * Properties *)

(** Decide a closed decidable proposition by evaluation. *)
Ltac by_evaluation := apply (bool_decide_unpack _); vm_compute; exact I.

(** ** Outcomes *)

Lemma bind_Ok {A B : Type} (m : outcome A) (k : A → outcome B) (b : B) :
  bind m k = Ok b ↔ ∃ a, m = Ok a ∧ k a = Ok b.
Proof.
  destruct m as [a|e|]; simpl; split; try (intros [a' [? ?]]); try done.
  - intros Hk. by exists a.
  - by simplify_eq.
Qed.

(** A loop invariant rule for [for_each]. *)
Lemma for_each_ind {A S : Type} (body : A → S → outcome S) (I : list A → S → Prop)
    (l : list A) (st st' : S) :
  I [] st →
  (∀ done a s s', a ∈ l → I done s → body a s = Ok s' → I (done ++ [a]) s') →
  for_each body l st = Ok st' →
  I l st'.
Proof.
  intros H0 Hstep.
  assert (∀ done rest s, done ++ rest = l → I done s →
            for_each body rest s = Ok st' → I l st') as Hgen.
  { intros done rest. revert done. induction rest as [|a rest IH]; intros done s Hl HI Hrun.
    - simpl in Hrun. simplify_eq. by rewrite app_nil_r.
    - simpl in Hrun. apply bind_Ok in Hrun as (s1 & Hb & Hrun).
      apply (IH (done ++ [a]) s1); [by rewrite <- app_assoc| |done].
      apply (Hstep done a s s1); [|done|done].
      rewrite <- Hl. set_solver. }
  intros Hrun. by apply (Hgen [] l st).
Qed.

(** ** Adjacency *)

(** Every door has an entry in [doors_keys]. *)
Definition doors_linked (self : Field) : Prop :=
  doors self ⊆ dom (doors_keys self).

(** A door whose key has not been collected yet. *)
Definition locked (self : Field) (p : Point) : Prop :=
  p ∈ doors self ∧
  match doors_keys self !! p with
  | Some k => k ∈ _keys self
  | None => False
  end.

#[global] Instance locked_dec self p : Decision (locked self p).
Proof. unfold locked. destruct (doors_keys self !! p); apply _. Defined.

(** A cell a robot may step on. *)
Definition free (self : Field) (p : Point) : Prop :=
  (0 < Point.x p < x_max_value self) ∧
  (0 < Point.y p < y_max_value self) ∧
  (p ∉ walls self) ∧
  (p ∉ _robots self) ∧
  ¬ locked self p.

#[global] Instance free_dec self p : Decision (free self p).
Proof. unfold free. apply _. Defined.

(** The order the specification document gives for the four neighbours:
    right, down, left, up (rows are numbered from the top). *)
Definition right_down_left_up (position : Point) : list Point :=
  [ Point.mk (Point.x position + 1) (Point.y position);
    Point.mk (Point.x position) (Point.y position + 1);
    Point.mk (Point.x position - 1) (Point.y position);
    Point.mk (Point.x position) (Point.y position - 1) ].

(** The order of [directions]: each pair is [(dx, dy)], so the first
    move changes the row. *)
Definition down_right_up_left (position : Point) : list Point :=
  [ Point.mk (Point.x position) (Point.y position + 1);
    Point.mk (Point.x position + 1) (Point.y position);
    Point.mk (Point.x position) (Point.y position - 1);
    Point.mk (Point.x position - 1) (Point.y position) ].

Lemma admits_free (self : Field) (p : Point) :
  doors_linked self → admits self p = Ok (bool_decide (free self p)).
Proof.
  intros Hlinked. unfold admits.
  destruct (decide (free self p)) as [Hfree|Hfree].
  - rewrite (bool_decide_eq_true_2 _ Hfree).
    destruct Hfree as (Hx & Hy & Hw & Hr & Hl).
    rewrite !bool_decide_eq_true_2 by done. simpl.
    case_bool_decide as Hd; [done|].
    assert (p ∈ dom (doors_keys self)) as [k Hk]%elem_of_dom by (by apply Hlinked).
    rewrite Hk. f_equal. apply bool_decide_eq_true_2.
    intros Hin. apply Hl. split; [done|]. by rewrite Hk.
  - rewrite (bool_decide_eq_false_2 _ Hfree).
    repeat (case_bool_decide; simpl; try done).
    + exfalso. apply Hfree. repeat split; try tauto. intros [? _]. done.
    + assert (p ∈ dom (doors_keys self)) as [k Hk]%elem_of_dom by (by apply Hlinked).
      rewrite Hk. f_equal. apply bool_decide_eq_false_2.
      intros Hin. apply Hfree. repeat split; try tauto.
      unfold locked. rewrite Hk. tauto.
Qed.

Lemma neighbors_along_filter (self : Field) (position : Point) (ds : list (Z * Z)) :
  doors_linked self →
  neighbors_along self position ds = Ok (filter (free self) (shift position <$> ds)).
Proof.
  intros Hlinked. induction ds as [|d ds IH]; [done|].
  simpl. rewrite admits_free by done. simpl. rewrite IH. simpl.
  rewrite filter_cons. by case_bool_decide; case_decide.
Qed.

Lemma shift_directions (position : Point) :
  shift position <$> directions = down_right_up_left position.
Proof.
  destruct position as [px py]. unfold down_right_up_left, shift. simpl.
  by rewrite !Z.add_0_r.
Qed.

Lemma get_neighbors_filter (self : Field) (position : Point) :
  doors_linked self →
  get_neighbors self position
    = Ok (filter (free self) (down_right_up_left position)).
Proof.
  intros Hlinked. unfold get_neighbors.
  rewrite neighbors_along_filter by done. by rewrite shift_directions.
Qed.

Definition open_room : Field := mkField ∅ ∅ ∅ ∅ ∅ 4 4.

(** A room of three by three free cells inside its border. *)
Definition room_grid : list (list ascii) :=
  grid ["#####"; "#...#"; "#...#"; "#...#"; "#####"]%string.

Definition room_field : Field :=
  Eval vm_compute in
    match Field_init room_grid with
    | Ok self => self
    | _ => open_room
    end.

(** C4, as stated, fails: in the field built from a 5 by 5 room without
    obstacles the cell (2, 2) has four free neighbours, and the first one
    produced is the cell below it, (2, 3), whereas "right, down, left, up"
    starts with (3, 2). *)
Lemma get_neighbors_order_counterexample :
  Field_init room_grid = Ok room_field
  ∧ get_neighbors room_field (Point.mk 2 2)
    = Ok [Point.mk 2 3; Point.mk 3 2; Point.mk 2 1; Point.mk 1 2]
  ∧ get_neighbors room_field (Point.mk 2 2)
    ≠ Ok (filter (free room_field) (right_down_left_up (Point.mk 2 2))).
Proof.
  split; [by vm_compute|]. split; [by vm_compute|].
  vm_compute. discriminate.
Qed.

(** C4, amended: on a field whose doors all have an entry in [doors_keys],
    [get_neighbors] yields exactly the free cells among the four orthogonal
    neighbours (strictly inside the bounds, not a wall, not occupied by a
    robot, not a door whose key is still to be collected), in the order
    down (y + 1), right (x + 1), up (y - 1), left (x - 1). *)
Theorem get_neighbors_spec (self : Field) (position : Point) :
  doors_linked self →
  get_neighbors self position
    = Ok (filter (free self) (down_right_up_left position)).
Proof.
  intros Hlinked. unfold get_neighbors.
  rewrite neighbors_along_filter by done. by rewrite shift_directions.
Qed.

Lemma get_neighbors_spec_witness :
  doors_linked open_room ∧
  get_neighbors open_room (Point.mk 2 2)
    = Ok (filter (free open_room) (down_right_up_left (Point.mk 2 2))).
Proof.
  assert (doors_linked open_room) as H by (by vm_compute).
  split; [exact H|]. apply (get_neighbors_spec open_room (Point.mk 2 2) H).
Defined.

(** ** The constructor *)

Lemma from_string_no_fuel (c : ascii) : from_string c ≠ OutOfFuel.
Proof. unfold from_string. by repeat case_match. Qed.

Lemma from_string_KeyError (c : ascii) (e : exn) : from_string c = Raise e → e = KeyError.
Proof. unfold from_string. repeat case_match; congruence. Qed.

Lemma from_string_DOOR (c : ascii) : from_string c = Ok DOOR ↔ is_door_char c = true.
Proof.
  unfold from_string, is_key_char, is_door_char.
  split.
  - repeat case_match; try done.
  - intros H. apply andb_true_iff in H as [H1 H2].
    rewrite H1, H2.
    destruct (97 <=? nat_of_ascii c)%nat eqn:E; cbn [andb]; [|done].
    apply Nat.leb_le in E, H2. lia.
Qed.

Lemma from_string_KEY (c : ascii) : from_string c = Ok KEY ↔ is_key_char c = true.
Proof.
  unfold from_string. split; [by repeat case_match|]. by intros ->.
Qed.

Lemma ex_cell_snoc (e : Element) (done : list (Point * ascii))
    (q : Point) (c0 : ascii) (p : Point) :
  (∃ c, (p, c) ∈ done ++ [(q, c0)] ∧ from_string c = Ok e) ↔
  (∃ c, (p, c) ∈ done ∧ from_string c = Ok e) ∨ (p = q ∧ from_string c0 = Ok e).
Proof.
  split.
  - intros (c & [Hin|Hin%list_elem_of_singleton]%elem_of_app & HP).
    + left. by exists c.
    + right. by simplify_eq.
  - intros [(c & Hin & HP)|[-> HP]].
    + exists c. split; [|done]. apply elem_of_app. by left.
    + exists c0. split; [|done]. apply elem_of_app. right.
      by apply list_elem_of_singleton.
Qed.

Lemma ex_point_snoc (e : Element) (done : list (Point * ascii))
    (q : Point) (c0 c : ascii) :
  (∃ p, (p, c) ∈ done ++ [(q, c0)] ∧ from_string c = Ok e) ↔
  (∃ p, (p, c) ∈ done ∧ from_string c = Ok e) ∨ (c = c0 ∧ from_string c0 = Ok e).
Proof.
  split.
  - intros (p & [Hin|Hin%list_elem_of_singleton]%elem_of_app & HP).
    + left. by exists p.
    + right. by simplify_eq.
  - intros [(p & Hin & HP)|[-> HP]].
    + exists p. split; [|done]. apply elem_of_app. by left.
    + exists q. split; [|done]. apply elem_of_app. right.
      by apply list_elem_of_singleton.
Qed.

(** The state of the first pair of loops after the cells [done]. *)
Definition placed (self0 : Field) (keys0 : gmap ascii Point)
    (done : list (Point * ascii)) (st : Field * gmap ascii Point) : Prop :=
  doors_keys st.1 = doors_keys self0
  ∧ x_max_value st.1 = x_max_value self0
  ∧ y_max_value st.1 = y_max_value self0
  ∧ (∀ p, p ∈ doors st.1 ↔
          p ∈ doors self0 ∨ ∃ c, (p, c) ∈ done ∧ from_string c = Ok DOOR)
  ∧ (∀ p, p ∈ _keys st.1 ↔
          p ∈ _keys self0 ∨ ∃ c, (p, c) ∈ done ∧ from_string c = Ok KEY)
  ∧ (∀ p, p ∈ _robots st.1 ↔
          p ∈ _robots self0 ∨ ∃ c, (p, c) ∈ done ∧ from_string c = Ok ROBOT)
  ∧ (∀ c, is_Some (st.2 !! c) ↔
          is_Some (keys0 !! c) ∨ ∃ p, (p, c) ∈ done ∧ from_string c = Ok KEY).

Lemma placed_nil (self0 : Field) (keys0 : gmap ascii Point) :
  placed self0 keys0 [] (self0, keys0).
Proof.
  unfold placed. simpl. repeat split; try done; try (by left);
    intros [?|(? & []%elem_of_nil & _)]; done.
Qed.

Lemma placed_step (self0 : Field) (keys0 : gmap ascii Point)
    (done : list (Point * ascii)) (cell : Point * ascii)
    (st st' : Field * gmap ascii Point) :
  placed self0 keys0 done st →
  place cell st = Ok st' →
  placed self0 keys0 (done ++ [cell]) st'.
Proof.
  destruct cell as [q c0], st as [s ks].
  intros (Hdk & Hx & Hy & Hd & Hk & Hr & Hks) Hbody.
  simpl in *. apply bind_Ok in Hbody as (el & Hel & Hbody).
  unfold placed.
  destruct el; simplify_eq; simpl; unfold set_add;
    (split; [done|]); (split; [done|]); (split; [done|]);
    (split; [|split; [|split]]);
    intros z;
    rewrite ?elem_of_union, ?elem_of_singleton, ?lookup_insert_is_Some',
      ?ex_cell_snoc, ?ex_point_snoc, ?Hd, ?Hk, ?Hr, ?Hks, Hel;
    clear; intuition (try congruence).
Qed.

Lemma place_loop (cs : list (Point * ascii)) (self0 self : Field)
    (keys0 keys : gmap ascii Point) :
  for_each place cs (self0, keys0) = Ok (self, keys) →
  placed self0 keys0 cs (self, keys).
Proof.
  apply (for_each_ind place (placed self0 keys0)).
  - apply placed_nil.
  - intros done a s s' _. apply placed_step.
Qed.

(** The state of the second pair of loops after the cells [done]. *)
Definition linked (self0 : Field) (done : list (Point * ascii)) (s : Field) : Prop :=
  _robots s = _robots self0
  ∧ _keys s = _keys self0
  ∧ doors s = doors self0
  ∧ x_max_value s = x_max_value self0
  ∧ y_max_value s = y_max_value self0
  ∧ (∀ p, is_Some (doors_keys s !! p) ↔
          is_Some (doors_keys self0 !! p)
          ∨ ∃ c, (p, c) ∈ done ∧ from_string c = Ok DOOR).

Lemma linked_step (keys : gmap ascii Point) (self0 : Field)
    (done : list (Point * ascii)) (cell : Point * ascii) (s s' : Field) :
  linked self0 done s →
  link keys cell s = Ok s' →
  linked self0 (done ++ [cell]) s'.
Proof.
  destruct cell as [q c0].
  intros (Hr & Hk & Hd & Hx & Hy & Hdk) Hbody.
  simpl in Hbody. apply bind_Ok in Hbody as (el & Hel & Hbody).
  unfold linked.
  destruct el; try destruct (keys !! lower c0); simplify_eq; simpl;
    do 5 (split; [done|]);
    intros z;
    rewrite ?lookup_insert_is_Some', ?ex_cell_snoc, ?Hdk, Hel;
    clear; intuition (try congruence).
Qed.

Lemma link_loop (keys : gmap ascii Point) (cs : list (Point * ascii))
    (self0 self : Field) :
  for_each (link keys) cs self0 = Ok self →
  linked self0 cs self.
Proof.
  apply (for_each_ind (link keys) (linked self0)).
  - unfold linked. repeat split; try done; try (by left).
    intros [?|(? & []%elem_of_nil & _)]; done.
  - intros done a s s' _. apply linked_step.
Qed.

Lemma Field_init_inv (data : list (list ascii)) (self : Field) :
  Field_init data = Ok self →
  ∃ keys : gmap ascii Point,
    (∀ p, p ∈ doors self ↔ ∃ c, (p, c) ∈ cells data ∧ from_string c = Ok DOOR)
    ∧ (∀ p, p ∈ _keys self ↔ ∃ c, (p, c) ∈ cells data ∧ from_string c = Ok KEY)
    ∧ (∀ p, p ∈ _robots self ↔ ∃ c, (p, c) ∈ cells data ∧ from_string c = Ok ROBOT)
    ∧ (∀ p, is_Some (doors_keys self !! p) ↔
            ∃ c, (p, c) ∈ cells data ∧ from_string c = Ok DOOR).
Proof.
  unfold Field_init. destruct data as [|row0 rows]; [done|].
  unfold _initialize_field. intros Hrun.
  apply bind_Ok in Hrun as ([s ks] & Hplace & Hlink). simpl in Hlink.
  apply place_loop in Hplace as (Hdk & _ & _ & Hd & Hk & Hr & _).
  apply link_loop in Hlink as (Hr' & Hk' & Hd' & _ & _ & Hdk').
  exists ks. rewrite Hr', Hk', Hd'. simpl in *.
  repeat split.
  - intros Hp. apply Hd in Hp. set_solver.
  - intros Hp. apply Hd. by right.
  - intros Hp. apply Hk in Hp. set_solver.
  - intros Hp. apply Hk. by right.
  - intros Hp. apply Hr in Hp. set_solver.
  - intros Hp. apply Hr. by right.
  - intros Hp. apply Hdk' in Hp as [Hp|Hp]; [|done].
    rewrite Hdk, lookup_empty in Hp. by destruct Hp.
  - intros Hp. apply Hdk'. by right.
Qed.

Lemma Field_init_linked (data : list (list ascii)) (self : Field) :
  Field_init data = Ok self → doors_linked self.
Proof.
  intros (ks & Hd & _ & _ & Hdk)%Field_init_inv p Hp.
  apply elem_of_dom, Hdk, Hd, Hp.
Qed.

(** Configurations obtained from a constructed one by [copy] and
    [collect_key]. *)
Inductive descends (self0 : Field) : Field → Prop :=
| descends_refl : descends self0 self0
| descends_copy self : descends self0 self → descends self0 (copy self)
| descends_collect_key self robot key self' :
    descends self0 self →
    collect_key self robot key = Ok self' →
    descends self0 self'.

Lemma collect_key_Ok (self self' : Field) (robot key : Point) :
  collect_key self robot key = Ok self' ↔
  robot ∈ _robots self ∧ key ∈ _keys self ∧
  self' = with_sets self (_robots self ∖ {[robot]} ∪ {[key]}) (_keys self ∖ {[key]}).
Proof.
  unfold collect_key, set_remove, set_add.
  repeat case_decide; simpl; naive_solver.
Qed.

Lemma descends_geometry (self0 self : Field) :
  descends self0 self →
  doors_keys self = doors_keys self0 ∧ doors self = doors self0
  ∧ walls self = walls self0
  ∧ x_max_value self = x_max_value self0 ∧ y_max_value self = y_max_value self0.
Proof.
  induction 1 as [|self _ IH|self r k self' _ IH Hc]; [done|done|].
  apply collect_key_Ok in Hc as (_ & _ & ->). done.
Qed.

(** C10: in a field built by the constructor, and in every configuration
    derived from it by [copy] and [collect_key], every door has an entry
    in [doors_keys]; hence the guard of [get_neighbors] never raises and
    the generator always runs to its end. *)
Theorem doors_keys_lookup_safe (data : list (list ascii)) (self0 self : Field) :
  Field_init data = Ok self0 →
  descends self0 self →
  (∀ door, door ∈ doors self → is_Some (doors_keys self !! door))
  ∧ (∀ neighbor, ∃ b, admits self neighbor = Ok b)
  ∧ (∀ position, ∃ l, get_neighbors self position = Ok l).
Proof.
  intros Hinit Hdesc.
  assert (doors_linked self) as Hlinked.
  { apply descends_geometry in Hdesc as (Hdk & Hd & _).
    unfold doors_linked. rewrite Hdk, Hd. by apply (Field_init_linked data). }
  split; [|split].
  - intros door Hdoor. by apply elem_of_dom, Hlinked.
  - intros neighbor. eexists. by apply admits_free.
  - intros position. eexists. by apply get_neighbors_spec.
Qed.

(** ** Rejected and accepted grids *)

Lemma for_each_no_fuel {A S : Type} (body : A → S → outcome S) (l : list A) (st : S) :
  (∀ a s, body a s ≠ OutOfFuel) → for_each body l st ≠ OutOfFuel.
Proof.
  intros Hbody. revert st. induction l as [|a l IH]; intros st; simpl; [done|].
  destruct (body a st) as [s'|e|] eqn:E; simpl; [apply IH|done|by apply Hbody in E].
Qed.

(** A loop whose body can only raise [e] raises [e] as soon as one element
    makes the body raise. *)
Lemma for_each_raises {A S : Type} (body : A → S → outcome S) (l : list A)
    (st : S) (a : A) (e : exn) :
  a ∈ l →
  (∀ s, body a s = Raise e) →
  (∀ b s, body b s ≠ OutOfFuel) →
  (∀ b s e', body b s = Raise e' → e' = e) →
  for_each body l st = Raise e.
Proof.
  intros Hin Ha Hfuel Honly. revert st.
  induction l as [|b l IH]; intros st; [by apply elem_of_nil in Hin|].
  simpl. apply elem_of_cons in Hin as [<-|Hin].
  - by rewrite Ha.
  - destruct (body b st) as [s'|e'|] eqn:E; simpl.
    + by apply IH.
    + by rewrite (Honly _ _ _ E).
    + by apply Hfuel in E.
Qed.

Lemma for_each_raise_only {A S : Type} (body : A → S → outcome S) (l : list A)
    (st : S) (e e' : exn) :
  (∀ b s e', body b s = Raise e' → e' = e) →
  for_each body l st = Raise e' → e' = e.
Proof.
  intros Honly. revert st. induction l as [|b l IH]; intros st; simpl; [done|].
  destruct (body b st) as [s'|e''|] eqn:E; simpl; [apply IH| |done].
  intros [= <-]. by apply (Honly _ _ _ E).
Qed.

Lemma place_no_fuel (cell : Point * ascii) (st : Field * gmap ascii Point) :
  place cell st ≠ OutOfFuel.
Proof.
  destruct cell as [p c], st as [s ks]. simpl.
  pose proof (from_string_no_fuel c).
  destruct (from_string c) as [[]| |]; done.
Qed.

Lemma place_KeyError (cell : Point * ascii) (st : Field * gmap ascii Point) (e : exn) :
  place cell st = Raise e → e = KeyError.
Proof.
  destruct cell as [p c], st as [s ks]. simpl.
  pose proof (from_string_KeyError c) as H.
  destruct (from_string c) as [[]|e'|]; simpl; try done.
  intros [= <-]. by apply H.
Qed.

Lemma link_no_fuel (keys : gmap ascii Point) (cell : Point * ascii) (s : Field) :
  link keys cell s ≠ OutOfFuel.
Proof.
  destruct cell as [p c]. simpl.
  pose proof (from_string_no_fuel c).
  destruct (from_string c) as [[]| |]; simpl; try done.
  by destruct (keys !! lower c).
Qed.

Lemma link_KeyError (keys : gmap ascii Point) (cell : Point * ascii) (s : Field) (e : exn) :
  link keys cell s = Raise e → e = KeyError.
Proof.
  destruct cell as [p c]. simpl.
  pose proof (from_string_KeyError c) as H.
  destruct (from_string c) as [[]|e'|]; simpl; try done.
  - destruct (keys !! lower c); [done|]. by intros [= <-].
  - intros [= <-]. by apply H.
Qed.

(** A door cell whose letter, in lower case, is the character of no cell. *)
Definition door_without_key (data : list (list ascii)) : Prop :=
  Exists (λ cell, is_door_char cell.2 = true ∧ lower cell.2 ∉ (cells data).*2)
         (cells data).

Lemma Field_init_door_without_key (data : list (list ascii)) :
  door_without_key data → Field_init data = Raise KeyError.
Proof.
  intros ([p c] & Hin & Hdoor & Hnokey)%Exists_exists. simpl in *.
  unfold Field_init. destruct data as [|row0 rows]; [by apply elem_of_nil in Hin|].
  unfold _initialize_field.
  destruct (for_each place (cells (row0 :: rows)) _) as [[s ks]|e|] eqn:Hplace; simpl.
  - apply (for_each_raises _ _ _ (p, c)); [done| |apply link_no_fuel|apply link_KeyError].
    intros s'. simpl. apply from_string_DOOR in Hdoor. rewrite Hdoor. simpl.
    apply place_loop in Hplace as (_ & _ & _ & _ & _ & _ & Hks). simpl in Hks.
    destruct (ks !! lower c) as [k|] eqn:Hk; [|done].
    exfalso. destruct (proj1 (Hks (lower c))) as [Hs|(q & Hq & _)]; [by eexists| |].
    + rewrite lookup_empty in Hs. by destruct Hs.
    + apply Hnokey. apply list_elem_of_fmap. by exists (q, lower c).
  - f_equal. apply (for_each_raise_only _ _ _ _ _ place_KeyError Hplace).
  - by apply for_each_no_fuel in Hplace; [|apply place_no_fuel].
Qed.

(** Rows of unequal length. *)
Definition ragged (data : list (list ascii)) : Prop :=
  Exists (λ row, Exists (λ row', length row ≠ length row') data) data.

(** No robot-start cell. *)
Definition no_robot (data : list (list ascii)) : Prop :=
  Forall (λ cell, cell.2 ≠ "@"%char) (cells data).

(** No key cell. *)
Definition no_key (data : list (list ascii)) : Prop :=
  Forall (λ cell, is_key_char cell.2 = false) (cells data).

#[global] Instance door_without_key_dec data : Decision (door_without_key data).
Proof. unfold door_without_key. apply _. Defined.

#[global] Instance ragged_dec data : Decision (ragged data).
Proof. unfold ragged. apply _. Defined.

#[global] Instance no_robot_dec data : Decision (no_robot data).
Proof. unfold no_robot. apply _. Defined.

#[global] Instance no_key_dec data : Decision (no_key data).
Proof. unfold no_key. apply _. Defined.

(** An iteration order to evaluate [solve] with. *)
Definition elements_order : nat → gset Point → list Point := λ _, elements.

Local Open Scope string_scope.

Definition ragged_grid : list (list ascii) := grid ["#####"; "#@a#"; "#####"].

Definition robotless_grid : list (list ascii) := grid ["###"; "#a#"; "###"].

Definition keyless_door_grid : list (list ascii) := grid ["####"; "#@A#"; "####"].

Definition walled_key_grid : list (list ascii) := grid ["#####"; "#@#a#"; "#####"].

Definition fixture_grid : list (list ascii) :=
  grid ["#########"; "#b.A.@.a#"; "#########"].

Local Close Scope string_scope.

(** C7, as stated, fails: a grid with rows of unequal length and a grid
    without any robot are both accepted by the constructor, and [solve]
    runs its search on them and returns. *)
Lemma malformed_grid_accepted_counterexample :
  (ragged ragged_grid
   ∧ ¬ raises (Field_init ragged_grid)
   ∧ solve elements_order 3 ragged_grid = Ok (Int 1))
  ∧ (no_robot robotless_grid
     ∧ ¬ raises (Field_init robotless_grid)
     ∧ ¬ raises (solve elements_order 2 robotless_grid)).
Proof.
  split; (split; [by_evaluation|split]).
  - vm_compute. by intros [e ?].
  - by vm_compute.
  - vm_compute. by intros [e ?].
  - vm_compute. by intros [e ?].
Qed.

(** C7, amended: a grid with a door whose lower-case letter appears at no
    cell is rejected with [KeyError] by the constructor, hence by [solve]
    before its loop starts, whatever fuel the loop is given.  (Ragged rows
    and the absence of robots are not checked.) *)
Theorem door_without_key_rejected (order : nat → gset Point → list Point)
    (fuel : nat) (data : list (list ascii)) :
  door_without_key data →
  Field_init data = Raise KeyError ∧ solve order fuel data = Raise KeyError.
Proof.
  intros H%Field_init_door_without_key. split; [done|].
  unfold solve. by rewrite H.
Qed.

Lemma door_without_key_rejected_witness :
  door_without_key keyless_door_grid
  ∧ Field_init keyless_door_grid = Raise KeyError
  ∧ solve elements_order 0 keyless_door_grid = Raise KeyError.
Proof.
  assert (door_without_key keyless_door_grid) as H
    by by_evaluation.
  split; [exact H|].
  apply (door_without_key_rejected elements_order 0 keyless_door_grid H).
Defined.

(** The field built from the regression fixture. *)
Definition fixture_field : Field :=
  Eval vm_compute in
    match Field_init fixture_grid with
    | Ok self => self
    | _ => open_room
    end.

Lemma fixture_field_built : Field_init fixture_grid = Ok fixture_field.
Proof. by vm_compute. Qed.

Lemma doors_keys_lookup_safe_witness :
  Field_init fixture_grid = Ok fixture_field
  ∧ descends fixture_field fixture_field
  ∧ (∀ door, door ∈ doors fixture_field →
             is_Some (doors_keys fixture_field !! door))
  ∧ (∀ neighbor, ∃ b, admits fixture_field neighbor = Ok b)
  ∧ (∀ position, ∃ l, get_neighbors fixture_field position = Ok l).
Proof.
  assert (Field_init fixture_grid = Ok fixture_field) as H1 by (by vm_compute).
  assert (descends fixture_field fixture_field) as H2 by constructor.
  split; [exact H1|]. split; [exact H2|].
  apply (doors_keys_lookup_safe fixture_grid fixture_field fixture_field H1 H2).
Defined.

(** ** The last line of [solve] *)

(** The float built by the last line is a new object, so the identity
    test never succeeds and [result] is returned as it is. *)
Lemma final_result_id (result : value) : final_result result = result.
Proof.
  unfold final_result, new_float_inf. destruct result as [o|n]; simpl; [|done].
  rewrite bool_decide_eq_false_2; [done|].
  intros Heq. apply (is_fresh ({[o]} : gset nat)). rewrite <- Heq. set_solver.
Qed.

(** ** Unfolding the [while] loop *)

Lemma body_terminal (order : nat → gset Point → list Point) (n : nat)
    (state : State) (l : loop) :
  _keys (field state) = ∅ →
  body order n state l
    = Ok (mkLoop (states l) (visited l) (py_min (result l) (steps state))).
Proof.
  intros Hk. unfold body, keys_count. rewrite Hk, size_empty.
  by rewrite decide_True.
Qed.

Lemma solve_loop_cons (order : nat → gset Point → list Point) (fuel n : nat)
    (state : State) (rest : list State) (seen : gset FieldState) (r : value) :
  solve_loop order (S fuel) n (mkLoop (state :: rest) seen r)
    = (l' ←! body order n state (mkLoop rest seen r);
       solve_loop order fuel (S n) l').
Proof. done. Qed.

Lemma solve_loop_nil (order : nat → gset Point → list Point) (fuel n : nat)
    (seen : gset FieldState) (r : value) :
  solve_loop order (S fuel) n (mkLoop [] seen r) = Ok r.
Proof. done. Qed.

(** ** Grids without keys *)

Lemma Field_init_no_key (data : list (list ascii)) (self : Field) :
  Field_init data = Ok self → no_key data → _keys self = ∅.
Proof.
  intros (_ & _ & Hk & _)%Field_init_inv Hno.
  apply leibniz_equiv, elem_of_equiv_empty. intros p (c & Hin & Hc)%Hk.
  apply from_string_KEY in Hc.
  unfold no_key in Hno. rewrite Forall_forall in Hno.
  specialize (Hno _ Hin). simpl in Hno. congruence.
Qed.

(** C8: on a grid the constructor accepts and that has no key cell,
    [solve] returns the integer 0 (two iterations of the loop test are
    enough: one for the initial node, one to see the empty queue). *)
Theorem solve_no_keys (order : nat → gset Point → list Point) (fuel : nat)
    (data : list (list ascii)) (self : Field) :
  Field_init data = Ok self →
  no_key data →
  (2 ≤ fuel)%nat →
  solve order fuel data = Ok (Int 0).
Proof.
  intros Hinit Hno Hfuel.
  pose proof (Field_init_no_key data self Hinit Hno) as Hk.
  destruct fuel as [|[|fuel]]; [lia|lia|].
  unfold solve. rewrite Hinit. cbn [bind].
  unfold initial_loop. rewrite solve_loop_cons.
  rewrite body_terminal by done. cbn [bind states visited result steps].
  rewrite solve_loop_nil. cbn [bind]. by rewrite final_result_id.
Qed.

Local Open Scope string_scope.

Definition keyless_grid : list (list ascii) := grid ["####"; "#@.#"; "####"].

Local Close Scope string_scope.

Definition keyless_field : Field :=
  Eval vm_compute in
    match Field_init keyless_grid with
    | Ok self => self
    | _ => open_room
    end.

Lemma solve_no_keys_witness :
  Field_init keyless_grid = Ok keyless_field
  ∧ no_key keyless_grid
  ∧ (2 ≤ 2)%nat
  ∧ solve elements_order 2 keyless_grid = Ok (Int 0).
Proof.
  assert (Field_init keyless_grid = Ok keyless_field) as H1 by (by vm_compute).
  assert (no_key keyless_grid) as H2 by by_evaluation.
  assert (2 ≤ 2)%nat as H3 by lia.
  split; [exact H1|]. split; [exact H2|]. split; [exact H3|].
  apply (solve_no_keys elements_order 2 keyless_grid keyless_field H1 H2 H3).
Defined.

(** ** One robot: the iteration order is immaterial *)

Lemma set_order_small (order : nat → gset Point → list Point) (n : nat)
    (s : gset Point) :
  set_order order → (size s ≤ 1)%nat → order n s = elements s.
Proof.
  intros Hord Hs. specialize (Hord n s).
  unfold size, set_size in Hs. simpl in Hs.
  destruct (elements s) as [|a [|b l]] eqn:E.
  - by apply Permutation_nil_r.
  - by apply Permutation_singleton_r.
  - simpl in Hs. lia.
Qed.

(** Every queued configuration has at most one robot. *)
Definition lone (l : loop) : Prop :=
  Forall (λ st, (size (_robots (field st)) ≤ 1)%nat) (states l).

Lemma collect_key_lone (self self' : Field) (robot key : Point) :
  (size (_robots self) ≤ 1)%nat →
  collect_key self robot key = Ok self' →
  (size (_robots self') ≤ 1)%nat.
Proof.
  intros Hs (Hr & _ & ->)%collect_key_Ok. simpl.
  rewrite size_union_alt.
  assert (size (_robots self ∖ {[robot]}) = 0)%nat as ->.
  { rewrite size_difference by set_solver. rewrite size_singleton. lia. }
  assert (size ({[key]} ∖ (_robots self ∖ {[robot]}) : gset Point) ≤ 1)%nat; [|lia].
  rewrite <- (size_singleton (C := gset Point) key).
  apply subseteq_size. set_solver.
Qed.

Lemma expand_lone (state : State) (robot : Point) (l l' : loop) :
  (size (_robots (field state)) ≤ 1)%nat →
  lone l → expand state robot l = Ok l' → lone l'.
Proof.
  intros Hs Hl. unfold expand.
  destruct (get_nearest_key (field state) robot) as [[path|]| |]; simpl; try done;
    [|by intros [= <-]].
  destruct (collect_key _ _ _) as [new_field| |] eqn:Hc; simpl; try done.
  case_decide; intros [= <-]; [|done].
  unfold lone. simpl. apply Forall_app. split; [done|].
  apply Forall_singleton. simpl. by apply (collect_key_lone _ _ _ _ Hs Hc).
Qed.

Lemma body_lone (order : nat → gset Point → list Point) (n : nat)
    (state : State) (l l' : loop) :
  (size (_robots (field state)) ≤ 1)%nat →
  lone l → body order n state l = Ok l' → lone l'.
Proof.
  intros Hs Hl. unfold body. case_decide.
  - by intros [= <-].
  - apply (for_each_ind (expand state) (λ _ l, lone l)); [done|].
    intros done a s s' _ Hlone. by apply expand_lone.
Qed.

Lemma body_lone_order (order : nat → gset Point → list Point) (n : nat)
    (state : State) (l : loop) :
  set_order order →
  (size (_robots (field state)) ≤ 1)%nat →
  body order n state l = body elements_order n state l.
Proof.
  intros Hord Hs. unfold body, robots. case_decide; [done|].
  by rewrite (set_order_small order n _ Hord Hs).
Qed.

Lemma solve_loop_lone_order (order : nat → gset Point → list Point)
    (fuel n : nat) (l : loop) :
  set_order order → lone l →
  solve_loop order fuel n l = solve_loop elements_order fuel n l.
Proof.
  intros Hord. revert n l. induction fuel as [|fuel IH]; intros n l Hl; [done|].
  simpl. destruct l as [[|state rest] seen r]; simpl; [done|].
  unfold lone in Hl. simpl in Hl. apply Forall_cons in Hl as [Hs Hrest].
  rewrite (body_lone_order order n state _ Hord Hs).
  destruct (body elements_order n state _) as [l'| |] eqn:Hb; simpl; try done.
  apply IH. by apply (body_lone elements_order n state
                         (mkLoop rest seen r) l' Hs).
Qed.

(** On a grid with at most one robot, [solve] computes the same result
    for every iteration order. *)
Lemma solve_lone_order (order : nat → gset Point → list Point) (fuel : nat)
    (data : list (list ascii)) (self : Field) :
  set_order order →
  Field_init data = Ok self →
  (size (_robots self) ≤ 1)%nat →
  solve order fuel data = solve elements_order fuel data.
Proof.
  intros Hord Hinit Hs. unfold solve. rewrite Hinit. cbn [bind].
  rewrite (solve_loop_lone_order order) by
    (done || by (apply Forall_singleton)).
  done.
Qed.

(** ** The regression fixture *)

(** C9: on the grid [#########] / [#b.A.@.a#] / [#########], whatever the
    iteration order of the (one-element) robot set, [solve] returns 8:
    two steps to [a], then six steps to [b] through the opened door.  The
    loop test runs four times: three nodes, then the empty queue. *)
Theorem solve_fixture (order : nat → gset Point → list Point) (fuel : nat) :
  set_order order →
  (4 ≤ fuel)%nat →
  solve order fuel fixture_grid = Ok (Int 8).
Proof.
  intros Hord Hfuel.
  rewrite (solve_lone_order order fuel _ _ Hord fixture_field_built)
    by (vm_compute; lia).
  destruct fuel as [|[|[|[|fuel]]]]; [lia|lia|lia|lia|].
  by vm_compute.
Qed.

Lemma solve_fixture_witness :
  set_order elements_order
  ∧ (4 ≤ 4)%nat
  ∧ solve elements_order 4 fixture_grid = Ok (Int 8).
Proof.
  assert (set_order elements_order) as H1 by (intros n s; reflexivity).
  assert (4 ≤ 4)%nat as H2 by lia.
  split; [exact H1|]. split; [exact H2|].
  apply (solve_fixture elements_order 4 H1 H2).
Defined.

(** ** The value returned by [solve] *)

(** The cumulative distances of the terminal nodes taken from the queue
    during the next [fuel] iterations, in the order they are taken. *)
Fixpoint terminal_distances (order : nat → gset Point → list Point)
    (fuel n : nat) (l : loop) : list Z :=
  match fuel with
  | O => []
  | S fuel' =>
      match states l with
      | [] => []
      | state :: rest =>
          match body order n state (mkLoop rest (visited l) (result l)) with
          | Ok l' =>
              (if decide (keys_count (field state) = 0) then [steps state] else [])
                ++ terminal_distances order fuel' (S n) l'
          | _ => []
          end
      end
  end.

Lemma expand_result (state : State) (robot : Point) (l l' : loop) :
  expand state robot l = Ok l' → result l' = result l.
Proof.
  unfold expand.
  destruct (get_nearest_key (field state) robot) as [[path|]| |]; simpl; try done.
  - destruct (collect_key _ _ _) as [new_field| |]; simpl; try done.
    by case_decide; intros [= <-].
  - by intros [= <-].
Qed.

Lemma body_result (order : nat → gset Point → list Point) (n : nat)
    (state : State) (l l' : loop) :
  body order n state l = Ok l' →
  result l' = if decide (keys_count (field state) = 0)
              then py_min (result l) (steps state) else result l.
Proof.
  unfold body. case_decide.
  - by intros [= <-].
  - apply (for_each_ind (expand state) (λ _ l', result l' = result l)); [done|].
    intros done a s s' _ Hs Hexp. by rewrite (expand_result _ _ _ _ Hexp).
Qed.

(** The loop returns [result] after taking [min] with the distance of
    every terminal node dequeued. *)
Lemma solve_loop_result (order : nat → gset Point → list Point)
    (fuel n : nat) (l : loop) (v : value) :
  solve_loop order fuel n l = Ok v →
  v = foldl py_min (result l) (terminal_distances order fuel n l).
Proof.
  revert n l. induction fuel as [|fuel IH]; intros n l; [done|].
  simpl. destruct (states l) as [|state rest]; [by intros [= <-]|].
  destruct (body order n state _) as [l'| |] eqn:Hbody; simpl; try done.
  intros Hrun%IH. rewrite foldl_app.
  apply body_result in Hbody. simpl in Hbody. rewrite Hrun, Hbody.
  by case_decide.
Qed.

Lemma foldl_py_min_Int (ts : list Z) (m : Z) :
  ∃ m', foldl py_min (Int m) ts = Int m'
        ∧ (m' = m ∨ m' ∈ ts) ∧ m' ≤ m ∧ ∀ t, t ∈ ts → m' ≤ t.
Proof.
  revert m. induction ts as [|t ts IH]; intros m; simpl.
  - exists m. split; [done|]. split; [by left|]. split; [lia|].
    by intros t []%elem_of_nil.
  - case_decide.
    + destruct (IH t) as (m' & Hm' & Hin & Hle & Hall). exists m'.
      split; [done|]. split; [|split; [lia|]].
      * right. destruct Hin as [->|Hin]; [by left|by right].
      * intros t' [->|Ht']%elem_of_cons; [done|by apply Hall].
    + destruct (IH m) as (m' & Hm' & Hin & Hle & Hall). exists m'.
      split; [done|]. split; [|split; [lia|]].
      * destruct Hin as [->|Hin]; [by left|right; by right].
      * intros t' [->|Ht']%elem_of_cons; [lia|by apply Hall].
Qed.

Lemma foldl_py_min_inf (ts : list Z) (o : nat) :
  (ts = [] → foldl py_min (Float_inf o) ts = Float_inf o)
  ∧ (ts ≠ [] → ∃ m, foldl py_min (Float_inf o) ts = Int m
                    ∧ m ∈ ts ∧ ∀ t, t ∈ ts → m ≤ t).
Proof.
  split; [by intros ->|]. destruct ts as [|t ts]; [done|]. intros _. simpl.
  destruct (foldl_py_min_Int ts t) as (m & Hm & Hin & Hle & Hall).
  exists m. split; [done|]. split.
  - destruct Hin as [->|Hin]; [by left|by right].
  - intros t' [->|Ht']%elem_of_cons; [done|by apply Hall].
Qed.

(** Whenever [solve] returns, it returns the least cumulative distance of
    the terminal nodes it has dequeued; when it has dequeued none, it
    returns the float made by its first line (and not 0). *)
Lemma solve_returns_minimum (order : nat → gset Point → list Point)
    (fuel : nat) (data : list (list ascii)) (self : Field) (v : value) :
  Field_init data = Ok self →
  solve order fuel data = Ok v →
  (terminal_distances order fuel 0 (initial_loop self) = [] →
   v = new_float_inf ∅)
  ∧ (terminal_distances order fuel 0 (initial_loop self) ≠ [] →
     ∃ m, v = Int m
          ∧ m ∈ terminal_distances order fuel 0 (initial_loop self)
          ∧ ∀ t, t ∈ terminal_distances order fuel 0 (initial_loop self) → m ≤ t).
Proof.
  intros Hinit. unfold solve. rewrite Hinit. cbn [bind].
  intros (r & Hr%solve_loop_result & [= <-])%bind_Ok.
  rewrite final_result_id, Hr. cbn [initial_loop result].
  apply foldl_py_min_inf.
Qed.

(** ** A key no robot can reach *)

Definition walled_key_field : Field :=
  Eval vm_compute in
    match Field_init walled_key_grid with
    | Ok self => self
    | _ => open_room
    end.

Lemma walled_key_field_built : Field_init walled_key_grid = Ok walled_key_field.
Proof. by vm_compute. Qed.

(** C1 fails on the code in its second half.  In the grid [#####] /
    [#@#a#] / [#####] the only key is behind a wall: the queue empties
    without any terminal node being dequeued, [result] is still the float
    made by the first line, and the last line, which compares it by
    identity with another float, returns it instead of 0. *)
Theorem solve_unreachable_key (order : nat → gset Point → list Point) (fuel : nat) :
  set_order order →
  (2 ≤ fuel)%nat →
  terminal_distances order fuel 0 (initial_loop walled_key_field) = []
  ∧ solve order fuel walled_key_grid = Ok (new_float_inf ∅)
  ∧ solve order fuel walled_key_grid ≠ Ok (Int 0).
Proof.
  intros Hord Hfuel.
  assert (solve order fuel walled_key_grid = Ok (new_float_inf ∅)) as Hrun.
  { rewrite (solve_lone_order order fuel _ _ Hord walled_key_field_built)
      by (vm_compute; lia).
    destruct fuel as [|[|fuel]]; [lia|lia|]. by vm_compute. }
  split; [|split; [done|by rewrite Hrun]].
  destruct (solve_returns_minimum order fuel _ _ _ walled_key_field_built Hrun)
    as [_ Hsome].
  destruct (terminal_distances order fuel 0 (initial_loop walled_key_field))
    as [|t ts]; [done|].
  by destruct Hsome as (m & Hm & _).
Qed.

Lemma solve_unreachable_key_witness :
  set_order elements_order
  ∧ (2 ≤ 2)%nat
  ∧ terminal_distances elements_order 2 0 (initial_loop walled_key_field) = []
  ∧ solve elements_order 2 walled_key_grid = Ok (new_float_inf ∅)
  ∧ solve elements_order 2 walled_key_grid ≠ Ok (Int 0).
Proof.
  assert (set_order elements_order) as H1 by (intros n s; reflexivity).
  assert (2 ≤ 2)%nat as H2 by lia.
  split; [exact H1|]. split; [exact H2|].
  apply (solve_unreachable_key elements_order 2 H1 H2).
Defined.

(** * [Field] instances as objects

    [collect_key] mutates the two sets of an instance in place and [copy]
    builds an instance that shares some attributes with its parent.  To
    speak about aliasing, instances are modelled here as records of
    references into a heap of mutable objects. *)

Module Obj.

Inductive object : Type :=
| OSet (s : gset Point)
| ODict (d : gmap Point Point).

(** The attributes of an instance: references, and two immutable ints. *)
Record instance : Set := mk {
  robots_ref : positive;
  keys_ref : positive;
  doors_keys_ref : positive;
  doors_ref : positive;
  walls_ref : positive;
  x_max : Z;
  y_max : Z
}.

(** Heap-passing computations; the heap survives an exception. *)
Definition M (A : Type) : Type :=
  gmap positive object → outcome A * gmap positive object.

Definition ret {A : Type} (a : A) : M A := λ h, (Ok a, h).

Definition seq {A B : Type} (m : M A) (k : A → M B) : M B := λ h,
  match m h with
  | (Ok a, h') => k a h'
  | (Raise e, h') => (Raise e, h')
  | (OutOfFuel, h') => (OutOfFuel, h')
  end.

(** [s.remove(p)] on the set object at [l]. *)
Definition set_remove (l : positive) (p : Point) : M unit := λ h,
  match h !! l with
  | Some (OSet s) =>
      if decide (p ∈ s) then (Ok tt, <[l := OSet (s ∖ {[p]})]> h)
      else (Raise KeyError, h)
  | _ => (Raise TypeError, h)
  end.

(** [s.add(p)] *)
Definition set_add (l : positive) (p : Point) : M unit := λ h,
  match h !! l with
  | Some (OSet s) => (Ok tt, <[l := OSet (s ∪ {[p]})]> h)
  | _ => (Raise TypeError, h)
  end.

(** [s.copy()]: a new set object with the same elements. *)
Definition set_copy (l : positive) : M positive := λ h,
  match h !! l with
  | Some (OSet s) =>
      let l' := fresh (dom h) in (Ok l', <[l' := OSet s]> h)
  | _ => (Raise TypeError, h)
  end.

Definition collect_key (self : instance) (robot_position key_position : Point)
  : M unit :=
  seq (set_remove (robots_ref self) robot_position) (λ _,
  seq (set_add (robots_ref self) key_position) (λ _,
  set_remove (keys_ref self) key_position)).

Definition copy (self : instance) : M instance :=
  seq (set_copy (robots_ref self)) (λ robots',
  seq (set_copy (keys_ref self)) (λ keys',
  ret (mk robots' keys' (doors_keys_ref self) (doors_ref self)
          (walls_ref self) (x_max self) (y_max self)))).

(** The instance [self] holds the robots [rs] and the keys [ks], in two
    different set objects (as [__init__] and [copy] create them). *)
Definition holds (h : gmap positive object) (self : instance)
    (rs ks : gset Point) : Prop :=
  h !! robots_ref self = Some (OSet rs)
  ∧ h !! keys_ref self = Some (OSet ks)
  ∧ robots_ref self ≠ keys_ref self.

(** The configuration an instance stands for. *)
Definition view (h : gmap positive object) (self : instance) : option Field :=
  match h !! robots_ref self, h !! keys_ref self, h !! doors_keys_ref self,
        h !! doors_ref self, h !! walls_ref self with
  | Some (OSet rs), Some (OSet ks), Some (ODict dk), Some (OSet ds), Some (OSet ws) =>
      Some (mkField rs ks dk ds ws (x_max self) (y_max self))
  | _, _, _, _, _ => None
  end.

End Obj.

(** ** Mutation and copying of instances *)

(** C5: on an instance holding robots [rs] and keys [ks],
    [collect_key(robot, key)] succeeds exactly when [robot] is in [rs] and
    [key] is in [ks]; it then leaves [rs] without [robot] and with [key] in
    the robot set, [ks] without [key] in the key set, and every other
    object untouched.  Otherwise it raises [KeyError]. *)
Theorem collect_key_spec (h : gmap positive Obj.object) (self : Obj.instance)
    (rs ks : gset Point) (robot key : Point) :
  Obj.holds h self rs ks →
  (robot ∈ rs ∧ key ∈ ks →
   ∃ h', Obj.collect_key self robot key h = (Ok tt, h')
         ∧ Obj.holds h' self (rs ∖ {[robot]} ∪ {[key]}) (ks ∖ {[key]})
         ∧ ∀ l, l ≠ Obj.robots_ref self → l ≠ Obj.keys_ref self →
                h' !! l = h !! l)
  ∧ (¬ (robot ∈ rs ∧ key ∈ ks) →
     ∃ h', Obj.collect_key self robot key h = (Raise KeyError, h')).
Proof.
  intros (Hr & Hk & Hne). split.
  - intros [Hrobot Hkey].
    unfold Obj.collect_key, Obj.seq, Obj.set_remove, Obj.set_add.
    rewrite Hr, decide_True by done.
    rewrite lookup_insert_eq.
    rewrite lookup_insert_ne, lookup_insert_ne, Hk by done.
    rewrite decide_True by done.
    eexists. split; [done|]. split.
    + unfold Obj.holds. rewrite lookup_insert_ne by done.
      rewrite !lookup_insert_eq. done.
    + intros l Hl1 Hl2. by rewrite !lookup_insert_ne.
  - intros Hnot.
    unfold Obj.collect_key, Obj.seq, Obj.set_remove, Obj.set_add.
    rewrite Hr. destruct (decide (robot ∈ rs)) as [Hrobot|Hrobot]; [|by eexists].
    rewrite lookup_insert_eq.
    rewrite lookup_insert_ne, lookup_insert_ne, Hk by done.
    rewrite decide_False by tauto. by eexists.
Qed.

Definition sample_heap : gmap positive Obj.object :=
  {[ 1%positive := Obj.OSet {[Point.mk 5 1]};
     2%positive := Obj.OSet {[Point.mk 7 1]};
     3%positive := Obj.ODict ∅;
     4%positive := Obj.OSet ∅;
     5%positive := Obj.OSet ∅ ]}.

Definition sample_instance : Obj.instance :=
  Obj.mk 1 2 3 4 5 8 2.

Lemma collect_key_spec_witness :
  Obj.holds sample_heap sample_instance {[Point.mk 5 1]} {[Point.mk 7 1]}
  ∧ (Point.mk 5 1 ∈ ({[Point.mk 5 1]} : gset Point)
     ∧ Point.mk 7 1 ∈ ({[Point.mk 7 1]} : gset Point))
  ∧ ∃ h', Obj.collect_key sample_instance (Point.mk 5 1) (Point.mk 7 1) sample_heap
            = (Ok tt, h').
Proof.
  assert (Obj.holds sample_heap sample_instance {[Point.mk 5 1]} {[Point.mk 7 1]})
    as H1 by (by vm_compute).
  assert (Point.mk 5 1 ∈ ({[Point.mk 5 1]} : gset Point)
          ∧ Point.mk 7 1 ∈ ({[Point.mk 7 1]} : gset Point)) as H2
    by (split; by_evaluation).
  split; [exact H1|]. split; [exact H2|].
  destruct (proj1 (collect_key_spec sample_heap sample_instance _ _
                     (Point.mk 5 1) (Point.mk 7 1) H1) H2) as (h' & Hrun & _).
  by exists h'.
Defined.

Lemma set_copy_fresh (h : gmap positive Obj.object) (l : positive) (s : gset Point) :
  h !! l = Some (Obj.OSet s) →
  Obj.set_copy l h = (Ok (fresh (dom h)), <[fresh (dom h) := Obj.OSet s]> h).
Proof. intros Hl. unfold Obj.set_copy. by rewrite Hl. Qed.

(** Running [collect_key] changes no object other than the two sets of the
    instance, whether it returns or raises. *)
Lemma collect_key_frame (h h' : gmap positive Obj.object) (self : Obj.instance)
    (robot key : Point) (res : outcome unit) (l : positive) :
  Obj.collect_key self robot key h = (res, h') →
  l ≠ Obj.robots_ref self → l ≠ Obj.keys_ref self →
  h' !! l = h !! l.
Proof.
  intros Hrun Hl1 Hl2.
  unfold Obj.collect_key, Obj.seq, Obj.set_remove, Obj.set_add in Hrun.
  repeat (case_match; simplify_eq; rewrite ?lookup_insert_ne by done; try done).
Qed.

(** C6: [copy] returns an instance whose robot and key sets are two new
    objects with the parent's contents, and whose other attributes are the
    parent's own references.  Whatever [collect_key] then does to the
    copy, whether it returns or raises, every object that existed before
    the copy, the parent's two sets among them, is left as it was. *)
Theorem copy_independent (h : gmap positive Obj.object) (self : Obj.instance)
    (rs ks : gset Point) :
  Obj.holds h self rs ks →
  ∃ inst h',
    Obj.copy self h = (Ok inst, h')
    ∧ (Obj.robots_ref inst ∉ dom h) ∧ (Obj.keys_ref inst ∉ dom h)
    ∧ Obj.doors_keys_ref inst = Obj.doors_keys_ref self
    ∧ Obj.doors_ref inst = Obj.doors_ref self
    ∧ Obj.walls_ref inst = Obj.walls_ref self
    ∧ Obj.x_max inst = Obj.x_max self ∧ Obj.y_max inst = Obj.y_max self
    ∧ Obj.holds h' inst rs ks
    ∧ Obj.holds h' self rs ks
    ∧ ∀ robot key res h'',
        Obj.collect_key inst robot key h' = (res, h'') →
        Obj.holds h'' self rs ks
        ∧ ∀ l, l ∈ dom h → h'' !! l = h !! l.
Proof.
  intros (Hr & Hk & Hne).
  set (l1 := fresh (dom h)).
  set (h1 := <[l1 := Obj.OSet rs]> h).
  set (l2 := fresh (dom h1)).
  set (h2 := <[l2 := Obj.OSet ks]> h1).
  assert (l1 ∉ dom h) as Hl1 by apply is_fresh.
  assert (l2 ∉ dom h1) as Hl2 by apply is_fresh.
  assert (l1 ≠ l2) as Hl12.
  { intros Heq. apply Hl2. rewrite <- Heq. unfold h1. set_solver. }
  assert (l2 ∉ dom h) as Hl2'.
  { intros Hin. apply Hl2. unfold h1. set_solver. }
  assert (∀ l, l ∈ dom h → l ≠ l1 ∧ l ≠ l2) as Hold.
  { intros l Hl. split; intros ->; done. }
  assert (∀ l, l ∈ dom h → h2 !! l = h !! l) as Hsame.
  { intros l [? ?]%Hold. unfold h2, h1. by rewrite !lookup_insert_ne. }
  assert (Obj.robots_ref self ∈ dom h) as Hdr by (apply elem_of_dom; by eexists).
  assert (Obj.keys_ref self ∈ dom h) as Hdk by (apply elem_of_dom; by eexists).
  exists (Obj.mk l1 l2 (Obj.doors_keys_ref self) (Obj.doors_ref self)
                 (Obj.walls_ref self) (Obj.x_max self) (Obj.y_max self)), h2.
  split.
  { unfold Obj.copy, Obj.seq, Obj.ret.
    rewrite (set_copy_fresh h _ rs Hr). fold l1 h1.
    assert (h1 !! Obj.keys_ref self = Some (Obj.OSet ks)) as Hk1.
    { unfold h1. rewrite lookup_insert_ne; [done|].
      intros Heq. by destruct (Hold _ Hdk) as [? _]. }
    by rewrite (set_copy_fresh h1 _ ks Hk1). }
  simpl. do 7 (split; [done|]).
  split.
  { unfold Obj.holds, h2, h1. simpl.
    rewrite lookup_insert_ne by done. rewrite !lookup_insert_eq. done. }
  split.
  { unfold Obj.holds. rewrite !Hsame by done. done. }
  intros robot key res h'' Hrun.
  assert (∀ l, l ∈ dom h → h'' !! l = h !! l) as Hframe.
  { intros l Hl. destruct (Hold l Hl) as [? ?].
    rewrite (collect_key_frame h2 h'' _ robot key res l Hrun) by done.
    by apply Hsame. }
  split; [|done].
  unfold Obj.holds. rewrite !Hframe by done. done.
Qed.

Lemma copy_independent_witness :
  Obj.holds sample_heap sample_instance {[Point.mk 5 1]} {[Point.mk 7 1]}
  ∧ ∃ inst h', Obj.copy sample_instance sample_heap = (Ok inst, h')
               ∧ Obj.robots_ref inst ∉ dom sample_heap.
Proof.
  assert (Obj.holds sample_heap sample_instance {[Point.mk 5 1]} {[Point.mk 7 1]})
    as H1 by (by vm_compute).
  split; [exact H1|].
  destruct (copy_independent sample_heap sample_instance _ _ H1)
    as (inst & h' & Hrun & Hfresh & _).
  by exists inst, h'.
Defined.

(** The value-level [copy] and [collect_key] used by [solve] describe what
    the object-level operations do to the configuration an instance
    stands for. *)
Lemma copy_collect_key_refines (h : gmap positive Obj.object)
    (self : Obj.instance) (f f' : Field) (robot key : Point) :
  Obj.view h self = Some f →
  Obj.robots_ref self ≠ Obj.keys_ref self →
  collect_key (copy f) robot key = Ok f' →
  ∃ inst h' h'',
    Obj.copy self h = (Ok inst, h')
    ∧ Obj.collect_key inst robot key h' = (Ok tt, h'')
    ∧ Obj.holds h'' inst (_robots f') (_keys f')
    ∧ Obj.holds h'' self (_robots f) (_keys f).
Proof.
  intros Hview Hne (Hrobot & Hkey & ->)%collect_key_Ok. simpl in *.
  assert (Obj.holds h self (_robots f) (_keys f)) as Hholds.
  { unfold Obj.view in Hview. unfold Obj.holds.
    repeat case_match; simplify_eq. done. }
  destruct (copy_independent h self _ _ Hholds)
    as (inst & h' & Hcopy & _ & _ & _ & _ & _ & _ & _ & Hinst & _ & Hparent).
  destruct (proj1 (collect_key_spec h' inst _ _ robot key Hinst)
              (conj Hrobot Hkey)) as (h'' & Hrun & Hafter & _).
  exists inst, h', h''. split; [done|]. split; [done|]. split; [done|].
  by apply (Hparent _ _ _ _ Hrun).
Qed.

(** ** Instances made by the constructor *)

(** [set()], [{}]: a new object. *)
Definition allocate (o : Obj.object) : Obj.M positive := λ h,
  (Ok (fresh (dom h)), <[fresh (dom h) := o]> h).

(** [Field(data)] as an object: [__init__] creates the two sets of the
    configuration, the dict and the two sets of the geometry, five
    objects in this order, and [_initialize_field] fills them; [f] is the
    content they end with. *)
Definition construct (data : list (list ascii)) : Obj.M Obj.instance := λ h,
  match Field_init data with
  | Ok f =>
      Obj.seq (allocate (Obj.OSet (_robots f))) (λ rs,
      Obj.seq (allocate (Obj.OSet (_keys f))) (λ ks,
      Obj.seq (allocate (Obj.ODict (doors_keys f))) (λ dk,
      Obj.seq (allocate (Obj.OSet (doors f))) (λ ds,
      Obj.seq (allocate (Obj.OSet (walls f))) (λ ws,
      Obj.ret (Obj.mk rs ks dk ds ws (x_max_value f) (y_max_value f))))))) h
  | Raise e => (Raise e, h)
  | OutOfFuel => (OutOfFuel, h)
  end.

(** A constructed instance holds its robots and keys in two different
    set objects and stands for the configuration [Field_init] computes. *)
Lemma construct_holds (data : list (list ascii)) (f : Field)
    (h : gmap positive Obj.object) :
  Field_init data = Ok f →
  ∃ inst h', construct data h = (Ok inst, h')
             ∧ Obj.holds h' inst (_robots f) (_keys f)
             ∧ Obj.view h' inst = Some f.
Proof.
  intros Hinit. unfold construct. rewrite Hinit.
  unfold Obj.seq, Obj.ret, allocate.
  set (l1 := fresh (dom h)). set (h1 := <[l1 := _]> h).
  set (l2 := fresh (dom h1)). set (h2 := <[l2 := _]> h1).
  set (l3 := fresh (dom h2)). set (h3 := <[l3 := _]> h2).
  set (l4 := fresh (dom h3)). set (h4 := <[l4 := _]> h3).
  set (l5 := fresh (dom h4)). set (h5 := <[l5 := _]> h4).
  assert (l2 ∉ dom h1) as H2 by apply is_fresh.
  assert (l3 ∉ dom h2) as H3 by apply is_fresh.
  assert (l4 ∉ dom h3) as H4 by apply is_fresh.
  assert (l5 ∉ dom h4) as H5 by apply is_fresh.
  unfold h4 in H5. unfold h3 in H4, H5. unfold h2 in H3, H4, H5.
  unfold h1 in H2, H3, H4, H5. rewrite !dom_insert_L in *.
  assert (l1 ≠ l2 ∧ l1 ≠ l3 ∧ l1 ≠ l4 ∧ l1 ≠ l5 ∧ l2 ≠ l3 ∧ l2 ≠ l4
          ∧ l2 ≠ l5 ∧ l3 ≠ l4 ∧ l3 ≠ l5 ∧ l4 ≠ l5)
    as (? & ? & ? & ? & ? & ? & ? & ? & ? & ?) by set_solver.
  eexists _, _. split; [done|]. split.
  - unfold Obj.holds, h5, h4, h3, h2, h1. simpl.
    rewrite !(lookup_insert_ne _ l5), !(lookup_insert_ne _ l4),
      !(lookup_insert_ne _ l3) by done.
    rewrite lookup_insert_eq, lookup_insert_ne, lookup_insert_eq by done. done.
  - unfold Obj.view, h5, h4, h3, h2, h1. simpl.
    rewrite !(lookup_insert_ne _ l5 l1), !(lookup_insert_ne _ l5 l2),
      !(lookup_insert_ne _ l5 l3), !(lookup_insert_ne _ l5 l4) by done.
    rewrite !(lookup_insert_ne _ l4 l1), !(lookup_insert_ne _ l4 l2),
      !(lookup_insert_ne _ l4 l3) by done.
    rewrite !(lookup_insert_ne _ l3 l1), !(lookup_insert_ne _ l3 l2) by done.
    rewrite !(lookup_insert_ne _ l2 l1) by done.
    rewrite !lookup_insert_eq. by destruct f.
Qed.

(** * Deduplication of configurations *)

(** The Configuration Signature of a search node. *)
Definition signature (st : State) : FieldState := dump (field st).

(** The nodes appended to the queue during the next [k] iterations of the
    [while] loop, starting at iteration [n] in loop state [l]. *)
Fixpoint enqueued (order : nat → gset Point → list Point) (k n : nat) (l : loop)
  : list State :=
  match k with
  | O => []
  | S k' =>
      match states l with
      | [] => []
      | state :: rest =>
          match body order n state (mkLoop rest (visited l) (result l)) with
          | Ok l' => drop (length rest) (states l') ++ enqueued order k' (S n) l'
          | _ => []
          end
      end
  end.

(** [l'] is [l] with the nodes [cs] appended: their signatures are new,
    pairwise different, now marked, and each has fewer than [bound] keys. *)
Definition appended (bound : nat) (cs : list State) (l l' : loop) : Prop :=
  states l' = states l ++ cs
  ∧ visited l' = visited l ∪ list_to_set (signature <$> cs)
  ∧ NoDup (signature <$> cs)
  ∧ (∀ c, c ∈ cs → signature c ∉ visited l)
  ∧ (∀ c, c ∈ cs → (size (_keys (field c)) < bound)%nat).

Lemma appended_nil (bound : nat) (l : loop) : appended bound [] l l.
Proof.
  unfold appended. simpl. rewrite app_nil_r.
  repeat split; try done; try (intros c []%elem_of_nil).
  - set_solver.
  - constructor.
Qed.

Lemma appended_trans (bound : nat) (cs1 cs2 : list State) (l1 l2 l3 : loop) :
  appended bound cs1 l1 l2 → appended bound cs2 l2 l3 →
  appended bound (cs1 ++ cs2) l1 l3.
Proof.
  intros (Hs1 & Hv1 & Hn1 & Hf1 & Hb1) (Hs2 & Hv2 & Hn2 & Hf2 & Hb2).
  unfold appended. rewrite Hs2, Hs1, Hv2, Hv1, fmap_app, list_to_set_app_L.
  split; [by rewrite app_assoc|]. split; [set_solver|]. split; [|split].
  - apply NoDup_app. split; [done|]. split; [|done].
    intros d Hd1 (c & -> & Hc)%list_elem_of_fmap.
    apply (Hf2 c Hc). rewrite Hv1. apply elem_of_union. right.
    by apply elem_of_list_to_set.
  - intros c [Hc|Hc]%elem_of_app; [by apply Hf1|].
    intros Hin. apply (Hf2 c Hc). rewrite Hv1. set_solver.
  - intros c [Hc|Hc]%elem_of_app; [by apply Hb1|by apply Hb2].
Qed.

Lemma expand_appended (state : State) (robot : Point) (l l' : loop) :
  expand state robot l = Ok l' →
  ∃ cs, appended (size (_keys (field state))) cs l l'.
Proof.
  unfold expand.
  destruct (get_nearest_key (field state) robot) as [[path|]| |]; simpl; try done.
  - destruct (collect_key _ _ _) as [new_field| |] eqn:Hc; simpl; try done.
    case_decide as Hnew; intros [= <-].
    + exists [mkState new_field (steps state + Path.length path)].
      unfold appended. simpl. split; [done|]. split; [set_solver|].
      split; [apply NoDup_singleton|]. split.
      * by intros c ->%list_elem_of_singleton.
      * intros c ->%list_elem_of_singleton. simpl.
        apply collect_key_Ok in Hc as (_ & Hkey & ->). simpl in *.
        rewrite size_difference by set_solver. rewrite size_singleton.
        assert (size (_keys (field state)) ≠ 0)%nat; [|lia].
        intros H0%size_empty_inv. set_solver.
    + exists []. apply appended_nil.
  - intros [= <-]. exists []. apply appended_nil.
Qed.

Lemma for_each_expand_appended (state : State) (robots : list Point) (l l' : loop) :
  for_each (expand state) robots l = Ok l' →
  ∃ cs, appended (size (_keys (field state))) cs l l'.
Proof.
  revert l. induction robots as [|robot robots IH]; intros l; simpl.
  - intros [= <-]. exists []. apply appended_nil.
  - intros (l1 & Hl1 & Hrest)%bind_Ok.
    apply expand_appended in Hl1 as (cs1 & H1).
    apply IH in Hrest as (cs2 & H2).
    exists (cs1 ++ cs2). by apply (appended_trans _ _ _ _ l1).
Qed.

Lemma body_appended (order : nat → gset Point → list Point) (n : nat)
    (state : State) (l l' : loop) :
  body order n state l = Ok l' →
  ∃ cs, states l' = states l ++ cs
        ∧ visited l' = visited l ∪ list_to_set (signature <$> cs)
        ∧ NoDup (signature <$> cs)
        ∧ (∀ c, c ∈ cs → signature c ∉ visited l)
        ∧ (∀ c, c ∈ cs → (size (_keys (field c)) < size (_keys (field state)))%nat).
Proof.
  unfold body. case_decide.
  - intros [= <-]. exists []. simpl. rewrite app_nil_r.
    repeat split; try done; try (intros c []%elem_of_nil).
    + set_solver.
    + constructor.
  - intros Hrun. by apply for_each_expand_appended in Hrun.
Qed.

(** The invariant of the [while] loop needed for deduplication: [seen] are
    the nodes enqueued so far, [sig0] the signature of the initial node
    (the only one never put into [visited]) and [bound] its number of
    keys. *)
Definition dedup_inv (sig0 : FieldState) (bound : nat) (seen : list State)
    (l : loop) : Prop :=
  NoDup (signature <$> seen)
  ∧ (∀ d, d ∈ visited l → (size (FieldState.keys d) < bound)%nat)
  ∧ (∀ st, st ∈ seen → signature st ∈ visited l ∨ signature st = sig0)
  ∧ (∀ st, st ∈ states l → (size (_keys (field st)) ≤ bound)%nat)
  ∧ size (FieldState.keys sig0) = bound.

Lemma dedup_inv_enqueued (order : nat → gset Point → list Point)
    (sig0 : FieldState) (bound : nat) (k n : nat) (seen : list State) (l : loop) :
  dedup_inv sig0 bound seen l →
  NoDup (signature <$> (seen ++ enqueued order k n l)).
Proof.
  revert n seen l. induction k as [|k IH]; intros n seen l Hinv.
  { simpl. rewrite app_nil_r. apply Hinv. }
  simpl. destruct l as [[|state rest] vis r]; simpl.
  { rewrite app_nil_r. apply Hinv. }
  destruct (body order n state (mkLoop rest vis r)) as [l'| |] eqn:Hbody;
    try (rewrite app_nil_r; apply Hinv).
  destruct Hinv as (Hnd & Hvis & Hseen & Hq & H0). simpl in *.
  apply body_appended in Hbody as (cs & Hs & Hv & Hncs & Hfresh & Hless).
  simpl in *. rewrite Hs, drop_app_length, app_assoc.
  assert (size (_keys (field state)) ≤ bound)%nat as Hstate
    by (apply Hq; left).
  apply IH. unfold dedup_inv. split; [|split; [|split; [|split]]].
  - rewrite fmap_app. apply NoDup_app. split; [done|]. split; [|done].
    intros d (st & -> & Hst)%list_elem_of_fmap (c & Heq & Hc)%list_elem_of_fmap.
    destruct (Hseen st Hst) as [Hin|Hin].
    + apply (Hfresh c Hc). by rewrite <- Heq.
    + specialize (Hless c Hc).
      assert (size (FieldState.keys (signature c)) = bound) as Hb
        by (by rewrite <- Heq, Hin).
      unfold signature, dump in Hb. simpl in Hb. lia.
  - intros d. rewrite Hv. intros [Hd|Hd]%elem_of_union; [by apply Hvis|].
    apply elem_of_list_to_set in Hd as (c & -> & Hc)%list_elem_of_fmap.
    specialize (Hless c Hc). unfold signature, dump. simpl. lia.
  - intros st [Hst|Hst]%elem_of_app; rewrite Hv.
    + destruct (Hseen st Hst) as [Hin|Hin]; [left|by right]. set_solver.
    + left. apply elem_of_union. right. apply elem_of_list_to_set.
      apply list_elem_of_fmap. by exists st.
  - intros st. rewrite Hs. intros [Hst|Hst]%elem_of_app.
    + apply Hq. by right.
    + specialize (Hless st Hst). lia.
  - done.
Qed.

(** C3: in a run of [solve], of any length, the nodes put into the queue
    (the initial one and every child appended) have pairwise different
    Configuration Signatures; and a child whose signature is already
    marked is dropped whatever cumulative distance its parent carries. *)
Theorem signatures_enqueued_once (order : nat → gset Point → list Point)
    (self : Field) (k : nat) :
  NoDup (signature <$>
           (mkState self 0 :: enqueued order k 0 (initial_loop self)))
  ∧ ∀ (f new_field : Field) (robot : Point) (path : Path) (l : loop),
      get_nearest_key f robot = Ok (Some path) →
      collect_key (copy f) (Path.start path) (Path.end_ path) = Ok new_field →
      dump new_field ∈ visited l →
      ∀ steps, expand (mkState f steps) robot l = Ok l.
Proof.
  split.
  - apply (dedup_inv_enqueued order (dump self) (size (_keys self)) k 0
             [mkState self 0] (initial_loop self)).
    unfold dedup_inv, initial_loop. simpl. split; [|split; [|split; [|split]]].
    + apply NoDup_singleton.
    + intros d []%elem_of_empty.
    + intros st ->%list_elem_of_singleton. by right.
    + intros st ->%list_elem_of_singleton. done.
    + done.
  - intros f new_field robot path l Hpath Hcollect Hin steps.
    unfold expand. simpl. rewrite Hpath. simpl. rewrite Hcollect. simpl.
    by rewrite decide_False by (by intros ?).
Qed.

(** ** A later, shorter arrival that is dropped *)

(** The loop state after [k] iterations. *)
Fixpoint run (order : nat → gset Point → list Point) (k n : nat) (l : loop)
  : outcome loop :=
  match k with
  | O => Ok l
  | S k' =>
      match states l with
      | [] => Ok l
      | state :: rest =>
          l' ←! body order n state (mkLoop rest (visited l) (result l));
          run order k' (S n) l'
      end
  end.

Local Open Scope string_scope.

(** Two robots side by side.  The left one stands on the only short way
    from the right one to [b]; its own nearest key is [a]. *)
Definition two_robot_grid : list (list ascii) :=
  grid ["#######";
        "#a@@..#";
        "##.##.#";
        "##b...#";
        "#######"].

Local Close Scope string_scope.

Definition two_robot_field : Field :=
  Eval vm_compute in
    match Field_init two_robot_grid with
    | Ok self => self
    | _ => open_room
    end.

(** The left robot has collected [a]. *)
Definition field_after_a : Field :=
  with_sets two_robot_field {[Point.mk 1 1; Point.mk 3 1]} {[Point.mk 2 3]}.

(** Both keys collected, the robots standing on the cells of [a] and [b]. *)
Definition field_after_ab : Field :=
  with_sets two_robot_field {[Point.mk 1 1; Point.mk 2 3]} ∅.

(** After two iterations the queue holds the node "left robot on [a]" at
    distance 1 and the terminal node reached the long way round, at
    distance 7 + 1 = 8, whose signature is marked. *)
Lemma two_robot_run :
  Field_init two_robot_grid = Ok two_robot_field
  ∧ match run elements_order 2 0 (initial_loop two_robot_field) with
    | Ok l =>
        (λ st, (field st, steps st)) <$> states l
          = [(field_after_a, 1); (field_after_ab, 8)]
        ∧ dump field_after_ab ∈ visited l
    | _ => False
    end.
Proof.
  split; [by vm_compute|].
  assert (match run elements_order 2 0 (initial_loop two_robot_field) with
          | Ok l =>
              bool_decide ((λ st, (field st, steps st)) <$> states l
                           = [(field_after_a, 1); (field_after_ab, 8)])
              && bool_decide (dump field_after_ab ∈ visited l)
          | _ => false
          end = true) as H by (by vm_compute).
  destruct (run elements_order 2 0 (initial_loop two_robot_field)); try done.
  apply andb_true_iff in H as [H1 H2].
  split; [by apply bool_decide_eq_true in H1|by apply bool_decide_eq_true in H2].
Qed.

Lemma signatures_enqueued_once_witness :
  get_nearest_key field_after_a (Point.mk 3 1)
    = Ok (Some (Path.mk 3 (Point.mk 3 1) (Point.mk 2 3)))
  ∧ collect_key (copy field_after_a) (Point.mk 3 1) (Point.mk 2 3)
    = Ok field_after_ab
  ∧ dump field_after_ab ∈ ({[dump field_after_ab]} : gset FieldState)
  ∧ (1 + 3 < 8)
  ∧ expand (mkState field_after_a 1) (Point.mk 3 1)
           (mkLoop [mkState field_after_ab 8] {[dump field_after_ab]}
                   (new_float_inf ∅))
    = Ok (mkLoop [mkState field_after_ab 8] {[dump field_after_ab]}
                 (new_float_inf ∅)).
Proof.
  assert (get_nearest_key field_after_a (Point.mk 3 1)
          = Ok (Some (Path.mk 3 (Point.mk 3 1) (Point.mk 2 3)))) as H1
    by (by vm_compute).
  assert (collect_key (copy field_after_a) (Point.mk 3 1) (Point.mk 2 3)
          = Ok field_after_ab) as H2 by (by vm_compute).
  assert (dump field_after_ab ∈ ({[dump field_after_ab]} : gset FieldState))
    as H3 by (by apply elem_of_singleton).
  split; [exact H1|]. split; [exact H2|]. split; [exact H3|]. split; [lia|].
  apply (proj2 (signatures_enqueued_once elements_order two_robot_field 0)
           field_after_a field_after_ab (Point.mk 3 1)
           (Path.mk 3 (Point.mk 3 1) (Point.mk 2 3))
           (mkLoop [mkState field_after_ab 8] {[dump field_after_ab]}
                   (new_float_inf ∅)) H1 H2 H3 1).
Defined.

(** * The nearest-key search *)

(** One move: [q] is produced by [get_neighbors] at [p]. *)
Definition edge (self : Field) (p q : Point) : Prop :=
  ∃ l, get_neighbors self p = Ok l ∧ q ∈ l.

(** [hops self r n p]: there is a walk of [n] moves from [r] to [p]. *)
Inductive hops (self : Field) (r : Point) : nat → Point → Prop :=
| hops_O : hops self r 0 r
| hops_S n p q : hops self r n p → edge self p q → hops self r (S n) q.

(** What [get_nearest_key] has to return for the robot at [r]. *)
Definition nearest_key_spec (self : Field) (r : Point)
    (res : outcome (option Path)) : Prop :=
  match res with
  | Ok (Some path) =>
      Path.start path = r
      ∧ Path.end_ path ∈ _keys self
      ∧ ∃ n, Path.length path = Z.of_nat n
             ∧ hops self r n (Path.end_ path)
             ∧ ∀ k m, k ∈ _keys self → hops self r m k → (n ≤ m)%nat
  | Ok None => ∀ k m, k ∈ _keys self → ¬ hops self r m k
  | _ => False
  end.

(** The cells strictly inside the bounds. *)
Definition cells_inside (self : Field) : list Point :=
  x ← seqZ 1 (x_max_value self - 1);
  y ← seqZ 1 (y_max_value self - 1);
  [Point.mk x y].

Lemma cells_inside_length (self : Field) :
  length (cells_inside self)
  = (Z.to_nat (x_max_value self - 1) * Z.to_nat (y_max_value self - 1))%nat.
Proof.
  unfold cells_inside.
  generalize (seqZ 1 (y_max_value self - 1)) (length_seqZ 1 (y_max_value self - 1)).
  generalize (Z.to_nat (y_max_value self - 1)).
  intros b ys Hys.
  rewrite <- (length_seqZ 1 (x_max_value self - 1)).
  induction (seqZ 1 (x_max_value self - 1)) as [|x xs IH]; [done|].
  cbn [mbind list_bind]. rewrite length_app, IH. simpl. f_equal.
  clear IH. rewrite <- Hys. clear Hys. induction ys as [|y ys IH]; [done|].
  cbn [mbind list_bind]. rewrite length_app, IH. done.
Qed.

Lemma free_inside (self : Field) (p : Point) :
  free self p → p ∈ cells_inside self.
Proof.
  intros ([Hx1 Hx2] & [Hy1 Hy2] & _). unfold cells_inside.
  apply list_elem_of_bind. exists (Point.x p). split.
  - apply list_elem_of_bind. exists (Point.y p). split.
    + destruct p. simpl. by apply list_elem_of_singleton.
    + apply elem_of_seqZ. lia.
  - apply elem_of_seqZ. lia.
Qed.

Lemma size_list_to_set_le (l : list Point) :
  (size (list_to_set l : gset Point) ≤ length l)%nat.
Proof.
  induction l as [|a l IH].
  - by rewrite list_to_set_nil, size_empty.
  - rewrite list_to_set_cons, size_union_alt, size_singleton. simpl.
    assert (size (list_to_set l ∖ {[a]} : gset Point)
            ≤ size (list_to_set l : gset Point))%nat
      by (apply subseteq_size; set_solver).
    lia.
Qed.

Lemma edge_free (self : Field) (p q : Point) :
  doors_linked self →
  edge self p q ↔ q ∈ down_right_up_left p ∧ free self q.
Proof.
  intros Hlinked. unfold edge. rewrite get_neighbors_filter by done. split.
  - intros (l & [= <-] & Hq). apply list_elem_of_filter in Hq. tauto.
  - intros [Hq Hfree]. eexists. split; [done|]. by apply list_elem_of_filter.
Qed.


(** ** The loop over the neighbours *)

(** From distances [D] and queue [Q], the loop over the neighbours [ns] of
    [c] appends the neighbours without a distance, once each, and gives
    them the distance of [c] plus one. *)
Lemma discover_loop (c : Point) (dc : Z) (ns : list Point)
    (D : gmap Point Z) (Q : list Point) :
  D !! c = Some dc →
  ∃ new D',
    for_each (discover c) ns (D, Q) = Ok (D', Q ++ new)
    ∧ NoDup new
    ∧ (∀ w, w ∈ new ↔ w ∈ ns ∧ D !! w = None)
    ∧ (∀ w, w ∈ new → D' !! w = Some (dc + 1))
    ∧ (∀ w, w ∉ new → D' !! w = D !! w).
Proof.
  revert D Q. induction ns as [|n ns IH]; intros D Q Hc.
  { exists [], D. simpl. rewrite app_nil_r.
    split; [done|]. split; [constructor|]. split; [|split].
    - intros w. split; [by intros []%elem_of_nil|by intros [[]%elem_of_nil _]].
    - by intros w []%elem_of_nil.
    - done. }
  cbn [for_each]. unfold discover at 1. cbn [fst snd].
  destruct (decide (is_Some (D !! n))) as [Hn|Hn].
  - cbn [bind]. destruct (IH D Q Hc) as (new & D' & Hrun & Hnd & Hnew & Hval & Hold).
    exists new, D'. split; [done|]. split; [done|]. split; [|done].
    intros w. rewrite Hnew, elem_of_cons. split; [tauto|].
    intros [[->|Hw] HD]; [|done]. rewrite HD in Hn. by destruct Hn.
  - rewrite Hc. cbn [bind].
    assert (D !! n = None) as HDn by (by apply eq_None_not_Some).
    assert (n ≠ c) as Hnc by congruence.
    destruct (IH (<[n := dc + 1]> D) (Q ++ [n])) as (new & D' & Hrun & Hnd & Hnew & Hval & Hold).
    { by rewrite lookup_insert_ne. }
    assert (n ∉ new) as Hnnew.
    { intros [_ H]%Hnew. by rewrite lookup_insert_eq in H. }
    exists (n :: new), D'. split; [|split; [|split; [|split]]].
    + rewrite Hrun. by rewrite <- app_assoc.
    + by constructor.
    + intros w. rewrite !elem_of_cons, Hnew. split.
      * intros [->|[Hw HD]]; [by split; [left|]|].
        destruct (decide (w = n)) as [->|Hne];
          [by rewrite lookup_insert_eq in HD|].
        rewrite lookup_insert_ne in HD by done. split; [by right|done].
      * intros [[->|Hw] HD]; [by left|].
        destruct (decide (w = n)) as [->|Hne]; [by left|].
        right. split; [done|]. by rewrite lookup_insert_ne.
    + intros w [->|Hw]%elem_of_cons; [|by apply Hval].
      rewrite Hold by done. by rewrite lookup_insert_eq.
    + intros w Hw. apply not_elem_of_cons in Hw as [Hne Hw].
      rewrite Hold by done. by rewrite lookup_insert_ne.
Qed.

(** ** The invariant of the [while] loop *)

(** [P] are the positions already taken from the queue, [D] the dict
    [distance], [Q] the queue and [U] a finite set that contains every
    position the search can meet. *)
Record bfs_inv (self : Field) (r : Point) (U P : gset Point)
    (D : gmap Point Z) (Q : list Point) : Prop := {
  inv_start : D !! r = Some 0;
  inv_sound : ∀ v d, D !! v = Some d → ∃ n, d = Z.of_nat n ∧ hops self r n v;
  inv_dom : ∀ v, is_Some (D !! v) ↔ v ∈ P ∨ v ∈ Q;
  inv_nodup : NoDup Q;
  inv_disjoint : ∀ v, v ∈ Q → v ∉ P;
  inv_no_key : ∀ p, p ∈ P → p ∉ _keys self;
  inv_closed : ∀ p q, p ∈ P → edge self p q →
                      ∃ dp dq, D !! p = Some dp ∧ D !! q = Some dq ∧ dq ≤ dp + 1;
  inv_levels : ∃ m Q1 Q2,
      Q = Q1 ++ Q2
      ∧ (∀ v, v ∈ Q1 → D !! v = Some m)
      ∧ (∀ v, v ∈ Q2 → D !! v = Some (m + 1))
      ∧ (∀ p, p ∈ P → ∃ d, D !! p = Some d ∧ d ≤ m);
  inv_universe : ∀ v, v ∈ P ∨ v ∈ Q → v ∈ U
}.

Definition universe (self : Field) (r : Point) : gset Point :=
  list_to_set (r :: cells_inside self).

Lemma bfs_inv_init (self : Field) (r : Point) :
  bfs_inv self r (universe self r) ∅ {[r := 0]} [r].
Proof.
  split.
  - apply lookup_singleton_eq.
  - intros v d [-> <-]%lookup_singleton_Some. exists 0%nat. split; [done|constructor].
  - intros v. rewrite list_elem_of_singleton.
    split.
    + intros [d [-> _]%lookup_singleton_Some]. by right.
    + intros [[]%elem_of_empty| ->]. rewrite lookup_singleton_eq. by eexists.
  - apply NoDup_singleton.
  - intros v _. apply not_elem_of_empty.
  - intros p []%elem_of_empty.
  - intros p q []%elem_of_empty.
  - exists 0, [r], []. split; [done|]. split; [|split].
    + intros v ->%list_elem_of_singleton. apply lookup_singleton_eq.
    + intros v []%elem_of_nil.
    + intros p []%elem_of_empty.
  - intros v [[]%elem_of_empty| ->%list_elem_of_singleton].
    unfold universe. set_solver.
Qed.

(** The head of the queue has the least distance in the queue, the others
    at most one more, and the processed positions at most its distance. *)
Lemma bfs_inv_head (self : Field) (r : Point) (U P : gset Point)
    (D : gmap Point Z) (c : Point) (Q' : list Point) :
  bfs_inv self r U P D (c :: Q') →
  ∃ dc, D !! c = Some dc
        ∧ (∀ u, u ∈ c :: Q' → ∃ du, D !! u = Some du ∧ dc ≤ du ≤ dc + 1)
        ∧ (∀ p, p ∈ P → ∃ d, D !! p = Some d ∧ d ≤ dc).
Proof.
  intros Hinv. destruct (inv_levels _ _ _ _ _ _ Hinv) as (m & Q1 & Q2 & HQ & H1 & H2 & HP).
  destruct Q1 as [|c1 Q1]; simpl in HQ.
  - exists (m + 1). split; [|split].
    + apply H2. rewrite <- HQ. by left.
    + intros u Hu. exists (m + 1). split; [|lia]. apply H2. by rewrite <- HQ.
    + intros p (d & Hd & Hle)%HP. exists d. split; [done|lia].
  - injection HQ as <- ->. exists m. split; [|split].
    + apply H1. by left.
    + intros u [<-|[Hu|Hu]%elem_of_app]%elem_of_cons.
      * exists m. split; [|lia]. apply H1. by left.
      * exists m. split; [|lia]. apply H1. by right.
      * exists (m + 1). split; [|lia]. by apply H2.
    + done.
Qed.

(** Every walk from the start ends at a position with a distance not
    above its length, or is longer than the distance of something still
    in the queue. *)
Lemma bfs_inv_cut (self : Field) (r : Point) (U P : gset Point)
    (D : gmap Point Z) (Q : list Point) (n : nat) (v : Point) :
  bfs_inv self r U P D Q →
  hops self r n v →
  (∃ d, D !! v = Some d ∧ d ≤ Z.of_nat n)
  ∨ (∃ u du, u ∈ Q ∧ D !! u = Some du ∧ du < Z.of_nat n).
Proof.
  intros Hinv. induction 1 as [|n p q Hp IH Hedge].
  - left. exists 0. split; [apply Hinv|done].
  - destruct IH as [(dp & Hdp & Hle)|(u & du & Hu & Hdu & Hlt)].
    + assert (p ∈ P ∨ p ∈ Q) as [HpP|HpQ] by (apply Hinv; by eexists).
      * destruct (inv_closed _ _ _ _ _ _ Hinv p q HpP Hedge)
          as (dp' & dq & Hdp' & Hdq & Hle').
        left. exists dq. split; [done|]. simplify_eq. lia.
      * right. exists p, dp. split; [done|]. split; [done|]. lia.
    + right. exists u, du. split; [done|]. split; [done|]. lia.
Qed.


(** One iteration of the loop on a position that holds no key. *)
Lemma bfs_inv_step (self : Field) (r : Point) (U P : gset Point)
    (D : gmap Point Z) (c : Point) (Q' : list Point) :
  doors_linked self →
  (∀ v, free self v → v ∈ U) →
  bfs_inv self r U P D (c :: Q') →
  c ∉ _keys self →
  ∃ ns D' new,
    get_neighbors self c = Ok ns
    ∧ for_each (discover c) ns (D, Q') = Ok (D', Q' ++ new)
    ∧ bfs_inv self r U (P ∪ {[c]}) D' (Q' ++ new).
Proof.
  intros Hlinked HU Hinv Hckey.
  destruct (bfs_inv_head _ _ _ _ _ _ _ Hinv) as (dc & Hdc & Hqueue & Hproc).
  destruct (inv_sound _ _ _ _ _ _ Hinv c dc Hdc) as (nc & Hnc & Hhops).
  pose proof (get_neighbors_filter self c Hlinked) as Hns.
  set (ns := filter (free self) (down_right_up_left c)) in *.
  destruct (discover_loop c dc ns D Q' Hdc) as (new & D' & Hrun & Hnd & Hnew & Hval & Hold).
  exists ns, D', new. split; [done|]. split; [done|].
  assert (∀ q, edge self c q ↔ q ∈ ns) as Hedge.
  { intros q. unfold edge. rewrite Hns. split.
    - by intros (l & [= <-] & Hq).
    - intros Hq. by exists ns. }
  assert (∀ v d, D !! v = Some d → D' !! v = Some d) as Hkeep.
  { intros v d Hv. rewrite Hold; [done|]. intros [_ H]%Hnew. congruence. }
  assert (NoDup Q' ∧ c ∉ Q') as [HndQ HcQ].
  { pose proof (inv_nodup _ _ _ _ _ _ Hinv) as H. apply NoDup_cons in H. tauto. }
  split.
  - apply Hkeep, Hinv.
  - intros v d Hv. destruct (decide (v ∈ new)) as [Hin|Hin].
    + rewrite (Hval v Hin) in Hv. injection Hv as <-.
      exists (S nc). split; [lia|].
      apply (hops_S _ _ _ c); [done|]. apply Hedge. by apply Hnew.
    + rewrite (Hold v Hin) in Hv. by apply (inv_sound _ _ _ _ _ _ Hinv).
  - intros v. rewrite elem_of_union, elem_of_singleton, elem_of_app.
    destruct (decide (v ∈ new)) as [Hin|Hin].
    + rewrite (Hval v Hin). split; [tauto|]. intros _. by eexists.
    + rewrite (Hold v Hin), (inv_dom _ _ _ _ _ _ Hinv v), elem_of_cons. tauto.
  - apply NoDup_app. split; [done|]. split; [|done].
    intros v Hv [_ HD]%Hnew.
    assert (is_Some (D !! v)) as [d Hd]
      by (apply (inv_dom _ _ _ _ _ _ Hinv); right; by right).
    congruence.
  - intros v [Hv|Hv]%elem_of_app.
    + apply not_elem_of_union. split.
      * apply (inv_disjoint _ _ _ _ _ _ Hinv). by right.
      * apply not_elem_of_singleton. by intros ->.
    + apply Hnew in Hv as [_ HD]. apply not_elem_of_union. split.
      * intros HP.
        assert (is_Some (D !! v)) as [d Hd]
          by (apply (inv_dom _ _ _ _ _ _ Hinv); by left).
        congruence.
      * apply not_elem_of_singleton. intros ->. congruence.
  - intros p [Hp| ->%elem_of_singleton]%elem_of_union; [|done].
    by apply (inv_no_key _ _ _ _ _ _ Hinv).
  - intros p q [Hp| ->%elem_of_singleton]%elem_of_union Hpq.
    + destruct (inv_closed _ _ _ _ _ _ Hinv p q Hp Hpq) as (dp & dq & Hdp & Hdq & Hle).
      exists dp, dq. split; [by apply Hkeep|]. split; [by apply Hkeep|done].
    + apply Hedge in Hpq.
      destruct (D !! q) as [dq|] eqn:HDq.
      * exists dc, dq. split; [by apply Hkeep|]. split; [by apply Hkeep|].
        assert (q ∈ P ∨ q ∈ c :: Q') as [HqP|HqQ]
          by (apply (inv_dom _ _ _ _ _ _ Hinv); by eexists).
        -- destruct (Hproc q HqP) as (d & Hd & Hle). simplify_eq. lia.
        -- destruct (Hqueue q HqQ) as (d & Hd & Hle). simplify_eq. lia.
      * exists dc, (dc + 1). split; [by apply Hkeep|]. split; [|lia].
        apply Hval. by apply Hnew.
  - destruct (inv_levels _ _ _ _ _ _ Hinv) as (m & Q1 & Q2 & HQ & H1 & H2 & HP).
    destruct Q1 as [|c1 Q1]; simpl in HQ.
    + exists (m + 1), Q', new.
      assert (dc = m + 1) as ->.
      { assert (D !! c = Some (m + 1)) by (apply H2; rewrite <- HQ; by left).
        congruence. }
      split; [done|]. split; [|split].
      * intros v Hv. apply Hkeep, H2. rewrite <- HQ. by right.
      * done.
      * intros p [Hp| ->%elem_of_singleton]%elem_of_union.
        -- destruct (HP p Hp) as (d & Hd & Hle). exists d.
           split; [by apply Hkeep|lia].
        -- exists (m + 1). split; [by apply Hkeep|lia].
    + injection HQ as <- ->. exists m, Q1, (Q2 ++ new).
      assert (dc = m) as ->.
      { assert (D !! c = Some m) by (apply H1; by left). congruence. }
      split; [by rewrite app_assoc|]. split; [|split].
      * intros v Hv. apply Hkeep, H1. by right.
      * intros v [Hv|Hv]%elem_of_app; [by apply Hkeep, H2|by apply Hval].
      * intros p [Hp| ->%elem_of_singleton]%elem_of_union.
        -- destruct (HP p Hp) as (d & Hd & Hle). exists d.
           split; [by apply Hkeep|done].
        -- exists m. split; [by apply Hkeep|lia].
  - intros v [[Hv| ->%elem_of_singleton]%elem_of_union|[Hv|Hv]%elem_of_app].
    + apply (inv_universe _ _ _ _ _ _ Hinv). by left.
    + apply (inv_universe _ _ _ _ _ _ Hinv). right. by left.
    + apply (inv_universe _ _ _ _ _ _ Hinv). right. by right.
    + apply HU. apply Hnew in Hv as [Hv _].
      unfold ns in Hv. apply list_elem_of_filter in Hv. tauto.
Qed.

(** ** The search returns, and returns a nearest key *)

Lemma bfs_loop_spec (self : Field) (r : Point) (U : gset Point) (fuel : nat)
    (P : gset Point) (D : gmap Point Z) (Q : list Point) :
  doors_linked self →
  (∀ v, free self v → v ∈ U) →
  bfs_inv self r U P D Q →
  (size (U ∖ P) < fuel)%nat →
  nearest_key_spec self r (bfs_loop fuel self r D Q).
Proof.
  intros Hlinked HU. revert P D Q.
  induction fuel as [|fuel IH]; intros P D Q Hinv Hfuel; [lia|].
  destruct Q as [|c Q']; cbn [bfs_loop].
  - intros k m Hk Hhops.
    destruct (bfs_inv_cut _ _ _ _ _ _ _ _ Hinv Hhops)
      as [(d & Hd & _)|(u & du & []%elem_of_nil & _)].
    assert (k ∈ P ∨ k ∈ []) as [HkP|[]%elem_of_nil]
      by (apply (inv_dom _ _ _ _ _ _ Hinv); by eexists).
    by apply (inv_no_key _ _ _ _ _ _ Hinv k).
  - destruct (bfs_inv_head _ _ _ _ _ _ _ Hinv) as (dc & Hdc & Hqueue & Hproc).
    destruct (decide (c ∈ _keys self)) as [Hckey|Hckey].
    + rewrite Hdc. cbn [nearest_key_spec Path.start Path.end_ Path.length].
      split; [done|]. split; [done|].
      destruct (inv_sound _ _ _ _ _ _ Hinv c dc Hdc) as (n & -> & Hhops).
      exists n. split; [done|]. split; [done|].
      intros k m Hk Hkhops.
      destruct (bfs_inv_cut _ _ _ _ _ _ _ _ Hinv Hkhops)
        as [(d & Hd & Hle)|(u & du & Hu & Hdu & Hlt)].
      * assert (k ∈ P ∨ k ∈ c :: Q') as [HkP|HkQ]
          by (apply (inv_dom _ _ _ _ _ _ Hinv); by eexists).
        -- by destruct (inv_no_key _ _ _ _ _ _ Hinv k HkP).
        -- destruct (Hqueue k HkQ) as (d' & Hd' & Hle'). simplify_eq. lia.
      * destruct (Hqueue u Hu) as (d' & Hd' & Hle'). simplify_eq. lia.
    + destruct (bfs_inv_step _ _ _ _ _ _ _ Hlinked HU Hinv Hckey)
        as (ns & D' & new & Hns & Hrun & Hinv').
      rewrite Hns. cbn [bind]. rewrite Hrun. cbn [bind fst snd].
      apply (IH (P ∪ {[c]})); [done|].
      assert (c ∈ U) as HcU
        by (apply (inv_universe _ _ _ _ _ _ Hinv); right; by left).
      assert (c ∉ P) as HcP
        by (apply (inv_disjoint _ _ _ _ _ _ Hinv); by left).
      assert (size (U ∖ (P ∪ {[c]})) < size (U ∖ P))%nat; [|lia].
      apply subset_size. set_solver.
Qed.

Lemma get_nearest_key_sound (self : Field) (r : Point) :
  doors_linked self →
  nearest_key_spec self r (get_nearest_key self r).
Proof.
  intros Hlinked. unfold get_nearest_key.
  apply (bfs_loop_spec self r (universe self r) _ ∅); [done| | |].
  - intros v Hv%free_inside. unfold universe. set_solver.
  - apply bfs_inv_init.
  - rewrite difference_empty_L. unfold universe, bfs_fuel.
    pose proof (size_list_to_set_le (r :: cells_inside self)) as Hle.
    cbn [length] in Hle. rewrite cells_inside_length in Hle. lia.
Qed.

(** C2: on a field whose doors all have an entry in [doors_keys],
    [get_nearest_key] returns (it neither raises nor runs out of fuel);
    when it returns a path, the path starts at the robot, ends on an
    uncollected key, its length is the number of moves of a walk to that
    key, and no walk to any uncollected key is shorter; and it returns
    [None] exactly when no walk from the robot reaches an uncollected
    key. *)
Theorem get_nearest_key_spec (self : Field) (r : Point) :
  doors_linked self →
  nearest_key_spec self r (get_nearest_key self r)
  ∧ (get_nearest_key self r = Ok None
     ↔ ∀ k m, k ∈ _keys self → ¬ hops self r m k).
Proof.
  intros Hlinked.
  assert (nearest_key_spec self r (get_nearest_key self r)) as Hspec.
  { unfold get_nearest_key.
    apply (bfs_loop_spec self r (universe self r) _ ∅); [done| | |].
    - intros v Hv%free_inside. unfold universe. set_solver.
    - apply bfs_inv_init.
    - rewrite difference_empty_L. unfold universe, bfs_fuel.
      pose proof (size_list_to_set_le (r :: cells_inside self)) as Hle.
      cbn [length] in Hle. rewrite cells_inside_length in Hle. lia. }
  split; [done|]. split.
  - intros Hnone. by rewrite Hnone in Hspec.
  - intros Hno. destruct (get_nearest_key self r) as [[path|]| |]; try done.
    destruct Hspec as (_ & Hkey & n & _ & Hhops & _).
    by destruct (Hno _ _ Hkey Hhops).
Qed.

Lemma get_nearest_key_spec_witness :
  doors_linked fixture_field
  ∧ nearest_key_spec fixture_field (Point.mk 5 1)
      (get_nearest_key fixture_field (Point.mk 5 1))
  ∧ get_nearest_key fixture_field (Point.mk 5 1)
    = Ok (Some (Path.mk 2 (Point.mk 5 1) (Point.mk 7 1))).
Proof.
  assert (doors_linked fixture_field) as H by by_evaluation.
  split; [exact H|].
  split; [exact (proj1 (get_nearest_key_spec fixture_field (Point.mk 5 1) H))|].
  by vm_compute.
Defined.

(** * [solve] returns on every grid the constructor accepts *)

(** What every queued node keeps from the initial one: its doors have
    their entries, and it has at most [R] robots. *)
Definition sound_node (R : nat) (st : State) : Prop :=
  doors_linked (field st) ∧ (size (_robots (field st)) ≤ R)%nat.

(** The child built for a robot: one key less, no more robots. *)
Definition child_of (f : Field) (c : State) : Prop :=
  S (size (_keys (field c))) = size (_keys f)
  ∧ doors_linked (field c)
  ∧ (size (_robots (field c)) ≤ size (_robots f))%nat.

Lemma collect_key_child (f f' : Field) (robot key : Point) (steps : Z) :
  doors_linked f →
  collect_key (copy f) robot key = Ok f' →
  child_of f (mkState f' steps).
Proof.
  intros Hlinked (Hrobot & Hkey & ->)%collect_key_Ok. simpl in *.
  split; [|split]; simpl.
  - rewrite size_difference by set_solver. rewrite size_singleton.
    assert (size (_keys f) ≠ 0)%nat; [|lia].
    intros H0%size_empty_inv. set_solver.
  - done.
  - rewrite size_union_alt.
    rewrite size_difference by set_solver. rewrite size_singleton.
    assert (size ({[key]} ∖ (_robots f ∖ {[robot]}) : gset Point) ≤ 1)%nat.
    { rewrite <- (size_singleton (C := gset Point) key).
      apply subseteq_size. set_solver. }
    assert (size (_robots f) ≠ 0)%nat; [|lia].
    intros H0%size_empty_inv. set_solver.
Qed.

(** [expand] never raises on a robot of the node: the path found starts
    at the robot and ends on a key, as [collect_key] requires. *)
Lemma expand_returns (state : State) (robot : Point) (l : loop) :
  doors_linked (field state) →
  robot ∈ _robots (field state) →
  ∃ l' cs, expand state robot l = Ok l'
           ∧ states l' = states l ++ cs
           ∧ (length cs ≤ 1)%nat
           ∧ Forall (child_of (field state)) cs.
Proof.
  intros Hlinked Hrobot.
  pose proof (get_nearest_key_sound (field state) robot Hlinked) as Hspec.
  unfold expand.
  destruct (get_nearest_key (field state) robot) as [[path|]| |]; try done.
  - destruct Hspec as (Hstart & Hend & _). cbn [bind].
    destruct (collect_key (copy (field state)) (Path.start path) (Path.end_ path))
      as [new_field| |] eqn:Hc.
    + cbn [bind]. case_decide.
      * eexists _, [_]. split; [done|]. split; [done|]. split; [done|].
        apply Forall_singleton. by apply (collect_key_child _ _ _ _ _ Hlinked Hc).
      * exists l, []. split; [done|]. split; [by rewrite app_nil_r|].
        split; [simpl; lia|constructor].
    + exfalso. unfold collect_key, set_remove in Hc. simpl in Hc.
      rewrite Hstart in Hc. rewrite !decide_True in Hc by done. done.
    + exfalso. unfold collect_key, set_remove in Hc. simpl in Hc.
      rewrite Hstart in Hc. rewrite !decide_True in Hc by done. done.
  - exists l, []. split; [done|]. split; [by rewrite app_nil_r|].
        split; [simpl; lia|constructor].
Qed.

Lemma for_each_expand_returns (state : State) (rs : list Point) (l : loop) :
  doors_linked (field state) →
  (∀ robot, robot ∈ rs → robot ∈ _robots (field state)) →
  ∃ l' cs, for_each (expand state) rs l = Ok l'
           ∧ states l' = states l ++ cs
           ∧ (length cs ≤ length rs)%nat
           ∧ Forall (child_of (field state)) cs.
Proof.
  intros Hlinked. revert l. induction rs as [|robot rs IH]; intros l Hrs.
  - exists l, []. split; [done|]. split; [by rewrite app_nil_r|].
        split; [simpl; lia|constructor].
  - destruct (expand_returns state robot l Hlinked) as (l1 & cs1 & H1 & Hs1 & Hn1 & Hc1).
    { apply Hrs. by left. }
    destruct (IH l1) as (l2 & cs2 & H2 & Hs2 & Hn2 & Hc2).
    { intros r Hr. apply Hrs. by right. }
    exists l2, (cs1 ++ cs2). cbn [for_each]. rewrite H1. cbn [bind].
    split; [done|]. split; [by rewrite Hs2, Hs1, app_assoc|].
    split; [rewrite length_app; simpl; lia|]. by apply Forall_app.
Qed.

(** A bound on the number of nodes in the search tree below a node with
    [k] keys and at most [R] robots. *)
Fixpoint weight (R k : nat) : nat :=
  match k with
  | O => 1
  | S k' => S (R * weight R k')
  end.

Definition queue_weight (R : nat) (q : list State) : nat :=
  sum_list_with (λ st, weight R (size (_keys (field st)))) q.

Lemma queue_weight_app (R : nat) (q1 q2 : list State) :
  queue_weight R (q1 ++ q2) = (queue_weight R q1 + queue_weight R q2)%nat.
Proof. apply sum_list_with_app. Qed.

Lemma children_weight (R k : nat) (cs : list State) :
  Forall (λ c, size (_keys (field c)) = k) cs →
  queue_weight R cs = (length cs * weight R k)%nat.
Proof.
  induction 1 as [|c cs Hc _ IH]; [done|].
  unfold queue_weight in *. cbn [sum_list_with length]. rewrite Hc, IH. lia.
Qed.

(** One iteration on a sound node returns, and replaces the node by
    children of smaller total weight. *)
Lemma body_returns (order : nat → gset Point → list Point) (n R : nat)
    (state : State) (l : loop) :
  set_order order →
  sound_node R state →
  ∃ l' cs, body order n state l = Ok l'
           ∧ states l' = states l ++ cs
           ∧ Forall (sound_node R) cs
           ∧ (queue_weight R cs < weight R (size (_keys (field state))))%nat.
Proof.
  intros Hord [Hlinked HR]. unfold body, keys_count.
  destruct (decide (Z.of_nat (size (_keys (field state))) = 0)) as [H0|H0].
  - eexists _, []. split; [done|]. simpl. rewrite app_nil_r.
    split; [done|]. split; [done|].
    unfold queue_weight. simpl. destruct (size (_keys (field state))); simpl; lia.
  - destruct (for_each_expand_returns state (order n (robots (field state))) l Hlinked)
      as (l' & cs & Hrun & Hs & Hlen & Hcs).
    { intros robot Hr. unfold robots in Hr. rewrite (Hord n _) in Hr.
      by apply elem_of_elements in Hr. }
    exists l', cs. split; [done|]. split; [done|].
    assert (length (order n (robots (field state))) ≤ R)%nat as Hcount.
    { unfold robots. rewrite (Permutation_length (Hord n _)).
      unfold size, set_size in HR. simpl in HR. done. }
    destruct (size (_keys (field state))) as [|k] eqn:Hk; [lia|].
    split.
    + eapply Forall_impl; [exact Hcs|]. intros c (_ & Hl & Hr).
      split; [done|]. lia.
    + rewrite (children_weight R k).
      * simpl. assert (length cs * weight R k ≤ R * weight R k)%nat; [|lia].
        apply Nat.mul_le_mono_r. lia.
      * eapply Forall_impl; [exact Hcs|]. intros c (Hc & _). lia.
Qed.

Lemma solve_loop_returns (order : nat → gset Point → list Point) (R : nat)
    (fuel n : nat) (l : loop) :
  set_order order →
  Forall (sound_node R) (states l) →
  (queue_weight R (states l) < fuel)%nat →
  ∃ v, solve_loop order fuel n l = Ok v.
Proof.
  intros Hord. revert n l. induction fuel as [|fuel IH]; intros n l Hl Hfuel; [lia|].
  destruct l as [[|state rest] seen r]; simpl in *; [by eexists|].
  apply Forall_cons in Hl as [Hstate Hrest].
  destruct (body_returns order n R state (mkLoop rest seen r) Hord Hstate)
    as (l' & cs & Hbody & Hs & Hcs & Hw).
  rewrite Hbody. cbn [bind]. apply IH.
  - rewrite Hs. simpl. by apply Forall_app.
  - rewrite Hs. simpl. rewrite queue_weight_app.
    unfold queue_weight in *. cbn [sum_list_with] in Hfuel. lia.
Qed.

(** Enough iterations for [solve] on a field with the robots and keys of
    [self]. *)
Definition solve_fuel (self : Field) : nat :=
  S (weight (size (_robots self)) (size (_keys self))).

(** On every grid the constructor accepts, and for every iteration order
    of the robot sets, [solve] returns once the loop is given
    [solve_fuel] iterations. *)
Lemma solve_returns (order : nat → gset Point → list Point) (fuel : nat)
    (data : list (list ascii)) (self : Field) :
  set_order order →
  Field_init data = Ok self →
  (solve_fuel self ≤ fuel)%nat →
  ∃ v, solve order fuel data = Ok v.
Proof.
  intros Hord Hinit Hfuel. unfold solve. rewrite Hinit. cbn [bind].
  destruct (solve_loop_returns order (size (_robots self)) fuel 0
              (initial_loop self) Hord) as (v & Hv).
  - apply Forall_singleton. split; [|done]. simpl.
    by apply (Field_init_linked data).
  - unfold initial_loop, queue_weight, solve_fuel in *. simpl. lia.
  - rewrite Hv. by eexists.
Qed.

(** More fuel does not change a result. *)
Lemma solve_loop_more_fuel (order : nat → gset Point → list Point)
    (fuel fuel' n : nat) (l : loop) (v : value) :
  solve_loop order fuel n l = Ok v → (fuel ≤ fuel')%nat →
  solve_loop order fuel' n l = Ok v.
Proof.
  revert fuel' n l. induction fuel as [|fuel IH]; intros fuel' n l; [done|].
  destruct fuel' as [|fuel']; [lia|]. simpl.
  destruct (states l) as [|state rest]; [done|].
  destruct (body order n state _) as [l'| |]; simpl; try done.
  intros Hrun Hle. apply IH; [done|lia].
Qed.

(** * Further properties of the constructor *)

Lemma elem_of_enumerate {A : Type} (l : list A) (i : Z) (a : A) :
  (i, a) ∈ enumerate l ↔ 0 ≤ i ∧ l !! Z.to_nat i = Some a.
Proof.
  unfold enumerate. rewrite elem_of_lookup_imap. split.
  - intros (n & b & [= -> ->] & Hn). rewrite Nat2Z.id. split; [lia|done].
  - intros [Hi Hl]. exists (Z.to_nat i), a. split; [|done].
    f_equal. lia.
Qed.

Lemma cells_lookup (data : list (list ascii)) (p : Point) (c : ascii) :
  (p, c) ∈ cells data ↔
  0 ≤ Point.x p ∧ 0 ≤ Point.y p
  ∧ ∃ row, data !! Z.to_nat (Point.y p) = Some row
           ∧ row !! Z.to_nat (Point.x p) = Some c.
Proof.
  unfold cells. rewrite list_elem_of_In, in_concat. split.
  - intros (l & Hl & Hin). apply in_map_iff in Hl as ([y row] & <- & Hrow).
    apply in_map_iff in Hin as ([x e] & [= <- <-] & He).
    apply list_elem_of_In, elem_of_enumerate in Hrow as [Hy Hrow].
    apply list_elem_of_In, elem_of_enumerate in He as [Hx He].
    simpl in *. split; [done|]. split; [done|]. by exists row.
  - intros (Hx & Hy & row & Hrow & Hc).
    exists (map (λ xe : Z * ascii, (Point.mk xe.1 (Point.y p), xe.2))
                (enumerate row)).
    split.
    + apply in_map_iff. exists (Point.y p, row). split; [done|].
      by apply list_elem_of_In, elem_of_enumerate.
    + apply in_map_iff. exists (Point.x p, c). split; [by destruct p|].
      by apply list_elem_of_In, elem_of_enumerate.
Qed.

Lemma cells_functional (data : list (list ascii)) (p : Point) (c c' : ascii) :
  (p, c) ∈ cells data → (p, c') ∈ cells data → c = c'.
Proof.
  intros (_ & _ & row & Hrow & Hc)%cells_lookup
         (_ & _ & row' & Hrow' & Hc')%cells_lookup.
  congruence.
Qed.

(** X1: the two nested [enumerate] loops of [_initialize_field] meet the
    character [c] at the point [(x, y)] exactly when row [y] of the grid
    has [c] at index [x]; hence no point is met with two characters. *)
Theorem elem_of_cells (data : list (list ascii)) (p : Point) (c : ascii) :
  ((p, c) ∈ cells data ↔
   0 ≤ Point.x p ∧ 0 ≤ Point.y p
   ∧ ∃ row, data !! Z.to_nat (Point.y p) = Some row
            ∧ row !! Z.to_nat (Point.x p) = Some c)
  ∧ ∀ c', (p, c) ∈ cells data → (p, c') ∈ cells data → c = c'.
Proof.
  split; [apply cells_lookup|]. intros c'. apply cells_functional.
Qed.

Lemma from_string_WALL (c : ascii) : from_string c = Ok WALL ↔ c = "#"%char.
Proof.
  split; [|by intros ->].
  unfold from_string. repeat case_match; try done.
  intros _. by apply Ascii.eqb_eq.
Qed.

Lemma from_string_ROBOT (c : ascii) : from_string c = Ok ROBOT ↔ c = "@"%char.
Proof.
  split; [|by intros ->].
  unfold from_string. repeat case_match; try done.
  intros _. by apply Ascii.eqb_eq.
Qed.

Lemma lower_door_key (c : ascii) :
  is_door_char c = true → is_key_char (lower c) = true.
Proof.
  intros H. unfold lower. rewrite H. unfold is_key_char, is_door_char in *.
  apply andb_true_iff in H as [H1%Nat.leb_le H2%Nat.leb_le].
  rewrite nat_ascii_embedding by lia.
  apply andb_true_iff. split; apply Nat.leb_le; lia.
Qed.

(** What the first pair of loops leaves in [walls] and in the local dict
    [keys]. *)
Lemma place_loop_walls (cs : list (Point * ascii)) (self0 self : Field)
    (keys0 keys : gmap ascii Point) :
  for_each place cs (self0, keys0) = Ok (self, keys) →
  (∀ p, p ∈ walls self ↔
        p ∈ walls self0 ∨ ∃ c, (p, c) ∈ cs ∧ from_string c = Ok WALL)
  ∧ (∀ c k, keys !! c = Some k →
        keys0 !! c = Some k ∨ ((k, c) ∈ cs ∧ from_string c = Ok KEY)).
Proof.
  apply (for_each_ind place (λ done st,
    (∀ p, p ∈ walls st.1 ↔
          p ∈ walls self0 ∨ ∃ c, (p, c) ∈ done ∧ from_string c = Ok WALL)
    ∧ (∀ c k, st.2 !! c = Some k →
          keys0 !! c = Some k ∨ ((k, c) ∈ done ∧ from_string c = Ok KEY)))).
  - simpl. split; [|by left].
    intros p. split; [by left|]. by intros [?|(? & []%elem_of_nil & _)].
  - intros done [q c0] [s ks] s' _ [Hw Hks] Hbody. simpl in *.
    apply bind_Ok in Hbody as (el & Hel & Hbody).
    assert (∀ c k, ks !! c = Some k →
              keys0 !! c = Some k
              ∨ ((k, c) ∈ done ++ [(q, c0)] ∧ from_string c = Ok KEY)) as Hks'.
    { intros c k [?|[? ?]]%Hks; [by left|right]. split; [|done].
      apply elem_of_app. by left. }
    destruct el; simplify_eq; simpl; unfold set_add; (split; [|try done]);
      try (intros z; rewrite ?elem_of_union, ?elem_of_singleton,
             ?ex_cell_snoc, ?Hw, Hel; clear; intuition (try congruence)).
    intros c k [[<- <-]|[_ Hc]]%lookup_insert_Some; [|by apply Hks'].
    right. split; [|done]. apply elem_of_app. right.
    by apply list_elem_of_singleton.
Qed.

(** What the second pair of loops leaves in [walls] and [doors_keys]. *)
Lemma link_loop_walls (keys : gmap ascii Point) (cs : list (Point * ascii))
    (self0 self : Field) :
  for_each (link keys) cs self0 = Ok self →
  walls self = walls self0
  ∧ (∀ p k, doors_keys self !! p = Some k →
        doors_keys self0 !! p = Some k
        ∨ ∃ c, (p, c) ∈ cs ∧ from_string c = Ok DOOR ∧ keys !! lower c = Some k).
Proof.
  apply (for_each_ind (link keys) (λ done s,
    walls s = walls self0
    ∧ (∀ p k, doors_keys s !! p = Some k →
          doors_keys self0 !! p = Some k
          ∨ ∃ c, (p, c) ∈ done ∧ from_string c = Ok DOOR
                 ∧ keys !! lower c = Some k))).
  - split; [done|]. by left.
  - intros done [q c0] s s' _ [Hw Hdk] Hbody. simpl in Hbody.
    apply bind_Ok in Hbody as (el & Hel & Hbody).
    assert (∀ p k, doors_keys s !! p = Some k →
              doors_keys self0 !! p = Some k
              ∨ ∃ c, (p, c) ∈ done ++ [(q, c0)] ∧ from_string c = Ok DOOR
                     ∧ keys !! lower c = Some k) as Hdk'.
    { intros p k [?|(c & ? & ? & ?)]%Hdk; [by left|right].
      exists c. split; [|done]. apply elem_of_app. by left. }
    destruct el; try destruct (keys !! lower c0) as [k0|] eqn:Hk0;
      simplify_eq; simpl; (split; [done|]); try done.
    intros p k [[<- <-]|[_ Hp]]%lookup_insert_Some; [|by apply Hdk'].
    right. exists c0. split; [|done]. apply elem_of_app. right.
    by apply list_elem_of_singleton.
Qed.

(** X2: on an accepted grid the constructor files every cell under its
    character: [walls] holds the cells of ['#'], [robots] those of ['@'],
    [keys] those of a lowercase letter and [doors] those of an uppercase
    letter; the four sets are pairwise disjoint; [x_max_value] is the
    length of the first row minus one and [y_max_value] the number of rows
    minus one. *)
Theorem Field_init_sets (data : list (list ascii)) (self : Field) :
  Field_init data = Ok self →
  (∀ p, p ∈ walls self ↔ (p, "#"%char) ∈ cells data)
  ∧ (∀ p, p ∈ _robots self ↔ (p, "@"%char) ∈ cells data)
  ∧ (∀ p, p ∈ _keys self ↔ ∃ c, (p, c) ∈ cells data ∧ is_key_char c = true)
  ∧ (∀ p, p ∈ doors self ↔ ∃ c, (p, c) ∈ cells data ∧ is_door_char c = true)
  ∧ (walls self ## _robots self ∧ walls self ## _keys self
     ∧ walls self ## doors self ∧ _robots self ## _keys self
     ∧ _robots self ## doors self ∧ _keys self ## doors self)
  ∧ x_max_value self = Z.of_nat (length (default [] (head data))) - 1
  ∧ y_max_value self = Z.of_nat (length data) - 1.
Proof.
  intros Hinit.
  set (kind := λ (e : Element) (p : Point),
         ∃ c, (p, c) ∈ cells data ∧ from_string c = Ok e).
  assert ((∀ p, p ∈ walls self ↔ kind WALL p)
          ∧ x_max_value self = Z.of_nat (length (default [] (head data))) - 1
          ∧ y_max_value self = Z.of_nat (length data) - 1) as (Hw & Hx & Hy).
  { unfold Field_init in Hinit. destruct data as [|row0 rows]; [done|].
    unfold _initialize_field in Hinit.
    apply bind_Ok in Hinit as ([s ks] & Hplace & Hlink). simpl in Hlink.
    pose proof (place_loop _ _ _ _ _ Hplace) as (_ & Hx & Hy & _).
    pose proof (link_loop _ _ _ _ Hlink) as (_ & _ & _ & Hx' & Hy' & _).
    apply place_loop_walls in Hplace as [Hw _].
    apply link_loop_walls in Hlink as [Hw' _].
    simpl in Hx, Hy, Hx', Hy', Hw, Hw'. rewrite Hw', Hx', Hy', Hx, Hy.
    split; [|done].
    intros p. rewrite Hw. split; [|by right].
    by intros [[]%elem_of_empty|]. }
  apply Field_init_inv in Hinit as (_ & Hd & Hk & Hr & _).
  fold (kind DOOR) in Hd. fold (kind KEY) in Hk. fold (kind ROBOT) in Hr.
  assert (∀ p e e', kind e p → kind e' p → e = e') as Hone.
  { intros p e e' (c & Hc & He) (c' & Hc' & He').
    pose proof (cells_functional data p c c' Hc Hc'). congruence. }
  split; [|split; [|split; [|split; [|split; [|done]]]]].
  - intros p. rewrite Hw. split.
    + by intros (c & Hc & ->%from_string_WALL).
    + intros Hc. by exists "#"%char.
  - intros p. rewrite Hr. split.
    + by intros (c & Hc & ->%from_string_ROBOT).
    + intros Hc. by exists "@"%char.
  - intros p. rewrite Hk. unfold kind. split.
    + intros (c & Hc & He%from_string_KEY). by exists c.
    + intros (c & Hc & He%from_string_KEY). by exists c.
  - intros p. rewrite Hd. unfold kind. split.
    + intros (c & Hc & He%from_string_DOOR). by exists c.
    + intros (c & Hc & He%from_string_DOOR). by exists c.
  - repeat split; intros p;
      rewrite ?Hw, ?Hr, ?Hk, ?Hd; intros H1 H2;
      by pose proof (Hone p _ _ H1 H2).
Qed.

Lemma Field_init_sets_witness :
  Field_init fixture_grid = Ok fixture_field
  ∧ (∀ p, p ∈ walls fixture_field ↔ (p, "#"%char) ∈ cells fixture_grid)
  ∧ (∀ p, p ∈ _robots fixture_field ↔ (p, "@"%char) ∈ cells fixture_grid)
  ∧ (∀ p, p ∈ _keys fixture_field ↔
          ∃ c, (p, c) ∈ cells fixture_grid ∧ is_key_char c = true)
  ∧ (∀ p, p ∈ doors fixture_field ↔
          ∃ c, (p, c) ∈ cells fixture_grid ∧ is_door_char c = true)
  ∧ (walls fixture_field ## _robots fixture_field
     ∧ walls fixture_field ## _keys fixture_field
     ∧ walls fixture_field ## doors fixture_field
     ∧ _robots fixture_field ## _keys fixture_field
     ∧ _robots fixture_field ## doors fixture_field
     ∧ _keys fixture_field ## doors fixture_field)
  ∧ x_max_value fixture_field
    = Z.of_nat (length (default [] (head fixture_grid))) - 1
  ∧ y_max_value fixture_field = Z.of_nat (length fixture_grid) - 1.
Proof.
  assert (Field_init fixture_grid = Ok fixture_field) as H by (by vm_compute).
  split; [exact H|].
  apply (Field_init_sets fixture_grid fixture_field H).
Defined.

(** X3: on an accepted grid [doors_keys] has an entry for exactly the
    doors, and the entry of a door is a key cell that carries the door's
    letter in lower case. *)
Theorem Field_init_doors_keys (data : list (list ascii)) (self : Field) :
  Field_init data = Ok self →
  dom (doors_keys self) = doors self
  ∧ ∀ door key, doors_keys self !! door = Some key →
      key ∈ _keys self
      ∧ ∃ c, (door, c) ∈ cells data ∧ is_door_char c = true
             ∧ (key, lower c) ∈ cells data.
Proof.
  intros Hinit. split.
  - apply Field_init_inv in Hinit as (_ & Hd & _ & _ & Hdk).
    apply set_eq. intros p. by rewrite elem_of_dom, Hdk, Hd.
  - intros door key Hdoor.
    pose proof (Field_init_inv _ _ Hinit) as (_ & _ & Hk & _).
    unfold Field_init in Hinit. destruct data as [|row0 rows]; [done|].
    unfold _initialize_field in Hinit.
    apply bind_Ok in Hinit as ([s ks] & Hplace & Hlink). simpl in Hlink.
    pose proof (place_loop _ _ _ _ _ Hplace) as (Hdk0 & _).
    apply place_loop_walls in Hplace as [_ Hks].
    apply link_loop_walls in Hlink as [_ Hdk].
    simpl in Hdk0. rewrite Hdk0 in Hdk.
    destruct (Hdk _ _ Hdoor) as [Hempty|(c & Hc & Hel & Hlow)];
      [by rewrite lookup_empty in Hempty|].
    destruct (Hks _ _ Hlow) as [Hempty|[Hkey Hkind]];
      [by rewrite lookup_empty in Hempty|].
    split.
    + apply Hk. by exists (lower c).
    + exists c. by apply from_string_DOOR in Hel.
Qed.

Lemma Field_init_doors_keys_witness :
  Field_init fixture_grid = Ok fixture_field
  ∧ dom (doors_keys fixture_field) = doors fixture_field
  ∧ ∀ door key, doors_keys fixture_field !! door = Some key →
      key ∈ _keys fixture_field
      ∧ ∃ c, (door, c) ∈ cells fixture_grid ∧ is_door_char c = true
             ∧ (key, lower c) ∈ cells fixture_grid.
Proof.
  assert (Field_init fixture_grid = Ok fixture_field) as H by (by vm_compute).
  split; [exact H|].
  apply (Field_init_doors_keys fixture_grid fixture_field H).
Defined.

(** A cell whose character [Element.from_string] does not know. *)
Definition unknown_char (data : list (list ascii)) : Prop :=
  Exists (λ cell, from_string cell.2 = Raise KeyError) (cells data).

#[global] Instance unknown_char_dec data : Decision (unknown_char data).
Proof.
  assert (∀ cell : Point * ascii,
            Decision (from_string cell.2 = Raise KeyError)) as Hdec.
  { intros cell. destruct (from_string cell.2) as [e|[]|];
      (by left) || (by right). }
  unfold unknown_char. apply _.
Defined.

Lemma for_each_Ok {A S : Type} (body : A → S → outcome S) (l : list A) (st : S) :
  (∀ a s, a ∈ l → ∃ s', body a s = Ok s') →
  ∃ st', for_each body l st = Ok st'.
Proof.
  revert st. induction l as [|a l IH]; intros st Hbody; simpl; [by eexists|].
  destruct (Hbody a st) as [s' ->]; [set_solver|]. simpl.
  apply IH. intros b s Hb. apply Hbody. set_solver.
Qed.

Lemma Field_init_unknown_char (data : list (list ascii)) :
  unknown_char data → Field_init data = Raise KeyError.
Proof.
  intros ([p c] & Hin & Hc)%Exists_exists. simpl in Hc.
  unfold Field_init. destruct data as [|row0 rows]; [by apply elem_of_nil in Hin|].
  unfold _initialize_field.
  rewrite (for_each_raises place _ _ (p, c) KeyError);
    [done|done| |apply place_no_fuel|apply place_KeyError].
  intros [s ks]. simpl. by rewrite Hc.
Qed.

Lemma Field_init_accepts (data : list (list ascii)) :
  data ≠ [] → ¬ unknown_char data → ¬ door_without_key data →
  ∃ self, Field_init data = Ok self.
Proof.
  intros Hdata Hknown Hdoors.
  assert (∀ p c, (p, c) ∈ cells data → ∃ e, from_string c = Ok e) as Hcls.
  { intros p c Hin. destruct (from_string c) as [e|e|] eqn:E; [by exists e| |].
    - destruct Hknown. apply Exists_exists. exists (p, c). split; [done|].
      simpl. by rewrite E, (from_string_KeyError _ _ E).
    - by apply from_string_no_fuel in E. }
  unfold Field_init. destruct data as [|row0 rows]; [done|].
  unfold _initialize_field.
  destruct (for_each_Ok place (cells (row0 :: rows))
              (mkField ∅ ∅ ∅ ∅ ∅ (Z.of_nat (length row0) - 1)
                 (Z.of_nat (length (row0 :: rows)) - 1), ∅)) as [[s ks] Hplace].
  { intros [p c] [s ks] Hin. destruct (Hcls p c Hin) as [e He].
    simpl. rewrite He. simpl. destruct e; by eexists. }
  rewrite Hplace. simpl.
  apply place_loop in Hplace as (_ & _ & _ & _ & _ & _ & Hks). simpl in Hks.
  apply for_each_Ok. intros [p c] s' Hin. destruct (Hcls p c Hin) as [e He].
  simpl. rewrite He. simpl. destruct e; try by eexists.
  apply from_string_DOOR in He.
  assert (is_Some (ks !! lower c)) as [k ->]; [|by eexists].
  apply Hks. right.
  destruct (decide (lower c ∈ (cells (row0 :: rows)).*2)) as [Hl|Hl].
  - apply list_elem_of_fmap in Hl as ([q c'] & Hc' & Hq). simpl in Hc'. subst c'.
    exists q. split; [done|]. by apply from_string_KEY, lower_door_key.
  - destruct Hdoors. apply Exists_exists. by exists (p, c).
Qed.

(** X4: the constructor raises [IndexError] exactly on the empty grid,
    raises [KeyError] exactly on a non-empty grid that has an unknown
    character or a door whose lowercase letter occurs nowhere, and builds
    a field on every other grid; it raises nothing else. *)
Theorem Field_init_outcome (data : list (list ascii)) :
  (Field_init data = Raise IndexError ↔ data = [])
  ∧ (Field_init data = Raise KeyError ↔
       data ≠ [] ∧ (unknown_char data ∨ door_without_key data))
  ∧ ((∃ self, Field_init data = Ok self) ↔
       data ≠ [] ∧ ¬ unknown_char data ∧ ¬ door_without_key data).
Proof.
  assert (data ≠ [] → unknown_char data ∨ door_without_key data →
          Field_init data = Raise KeyError) as Hkey.
  { intros _ [H|H]; [by apply Field_init_unknown_char|
                     by apply Field_init_door_without_key]. }
  destruct (decide (data = [])) as [->|Hdata].
  { split; [done|]. split; [split; [done|by intros [[] _]]|].
    split; [by intros [self ?]|by intros [[] _]]. }
  destruct (decide (unknown_char data ∨ door_without_key data)) as [Hbad|Hgood].
  - rewrite (Hkey Hdata Hbad).
    split; [done|]. split; [done|].
    split; [by intros [self ?]|]. intros (_ & H1 & H2). by destruct Hbad.
  - destruct (Field_init_accepts data) as [self Hself];
      [done|by intros ?; apply Hgood; left|by intros ?; apply Hgood; right|].
    rewrite Hself.
    split; [done|]. split; [split; [done|by intros [_ ?]]|].
    split; [|by eexists]. intros _. split; [done|].
    split; intros ?; apply Hgood; [by left|by right].
Qed.

(** * Further properties of [get_neighbors] *)

(** A door a robot could step on as far as bounds, robots and walls go,
    but without an entry in [doors_keys]. *)
Definition unlinked_door (self : Field) (p : Point) : Prop :=
  (0 < Point.x p < x_max_value self) ∧
  (0 < Point.y p < y_max_value self) ∧
  (p ∉ _robots self) ∧
  (p ∉ walls self) ∧
  (p ∈ doors self) ∧
  doors_keys self !! p = None.

#[global] Instance unlinked_door_dec self p : Decision (unlinked_door self p).
Proof. unfold unlinked_door. apply _. Defined.

Lemma admits_outcome (self : Field) (p : Point) :
  admits self p
  = if decide (unlinked_door self p) then Raise KeyError
    else Ok (bool_decide (free self p)).
Proof.
  unfold admits. destruct (decide (unlinked_door self p)) as [Hu|Hu].
  - destruct Hu as (Hx & Hy & Hr & Hw & Hd & Hdk).
    rewrite !bool_decide_eq_true_2 by done. simpl.
    rewrite bool_decide_eq_false_2 by (by intros ?). by rewrite Hdk.
  - unfold unlinked_door in Hu. unfold free, locked.
    repeat (case_bool_decide; simpl; try done);
      destruct (doors_keys self !! p) as [k|] eqn:Hk;
      try (f_equal; symmetry);
      try (apply bool_decide_eq_true_2 || apply bool_decide_eq_false_2);
      try case_bool_decide; tauto.
Qed.

Lemma neighbors_along_outcome (self : Field) (position : Point) (ds : list (Z * Z)) :
  neighbors_along self position ds
  = if decide (Exists (unlinked_door self) (shift position <$> ds))
    then Raise KeyError
    else Ok (filter (free self) (shift position <$> ds)).
Proof.
  induction ds as [|d ds IH].
  - rewrite decide_False; [done|]. by intros ?%Exists_nil.
  - rewrite fmap_cons. cbn [neighbors_along]. rewrite admits_outcome, IH.
    destruct (decide (Exists _ (shift position d :: _))) as [H|H].
    + destruct (decide (unlinked_door self (shift position d))); [done|].
      destruct (decide (Exists _ (shift position <$> ds))); [done|].
      by apply Exists_cons in H as [?|?].
    + rewrite Exists_cons in H.
      destruct (decide (unlinked_door self (shift position d))); [tauto|].
      destruct (decide (Exists _ (shift position <$> ds))); [tauto|].
      cbn [bind]. rewrite filter_cons. by case_bool_decide; case_decide.
Qed.

(** X5: [get_neighbors] raises [KeyError] exactly when one of the four
    orthogonal neighbours is a door inside the bounds, free of robots and
    walls, that has no entry in [doors_keys]; in every other case it
    yields the free cells among the four neighbours. *)
Theorem get_neighbors_outcome (self : Field) (position : Point) :
  get_neighbors self position
  = if decide (Exists (unlinked_door self) (down_right_up_left position))
    then Raise KeyError
    else Ok (filter (free self) (down_right_up_left position)).
Proof.
  unfold get_neighbors. by rewrite neighbors_along_outcome, shift_directions.
Qed.

Lemma get_neighbors_Ok (self : Field) (position : Point) (l : list Point) :
  get_neighbors self position = Ok l →
  l = filter (free self) (down_right_up_left position).
Proof.
  unfold get_neighbors. rewrite neighbors_along_outcome, shift_directions.
  case_decide; [done|]. by intros [= <-].
Qed.

(** The Manhattan distance of two points. *)
Definition manhattan (p q : Point) : Z :=
  Z.abs (Point.x q - Point.x p) + Z.abs (Point.y q - Point.y p).

Lemma down_right_up_left_manhattan (p q : Point) :
  q ∈ down_right_up_left p ↔ manhattan p q = 1.
Proof.
  destruct p as [px py], q as [qx qy]. unfold down_right_up_left, manhattan.
  simpl. rewrite !elem_of_cons, elem_of_nil. split.
  - intros [H|[H|[H|[H|[]]]]]; simplify_eq; lia.
  - intros H.
    assert ((qx = px ∧ qy = py + 1) ∨ (qx = px + 1 ∧ qy = py)
            ∨ (qx = px ∧ qy = py - 1) ∨ (qx = px - 1 ∧ qy = py))
      as [[-> ->]|[[-> ->]|[[-> ->]|[-> ->]]]] by lia; tauto.
Qed.

Lemma down_right_up_left_NoDup (p : Point) : NoDup (down_right_up_left p).
Proof.
  destruct p as [px py]. unfold down_right_up_left. simpl.
  repeat (apply NoDup_cons; split;
          [rewrite ?elem_of_cons, elem_of_nil; intros ?;
           repeat match goal with
                  | H : _ ∨ _ |- _ => destruct H as [?|?]; [simplify_eq; lia|]
                  end; done|]).
  apply NoDup_nil_2.
Qed.

(** X6: whenever [get_neighbors] runs to its end, the cells it yields are
    pairwise distinct, at most four, each one free and at Manhattan
    distance one from the position; conversely every free cell at distance
    one is yielded.  In particular the position itself is never yielded. *)
Theorem get_neighbors_adjacent (self : Field) (position : Point) (l : list Point) :
  get_neighbors self position = Ok l →
  NoDup l
  ∧ (length l ≤ 4)%nat
  ∧ (∀ q, q ∈ l ↔ free self q ∧ manhattan position q = 1)
  ∧ position ∉ l.
Proof.
  intros ->%get_neighbors_Ok.
  assert (∀ q, q ∈ filter (free self) (down_right_up_left position)
               ↔ free self q ∧ manhattan position q = 1) as Hin.
  { intros q. by rewrite list_elem_of_filter, down_right_up_left_manhattan. }
  split; [apply NoDup_filter, down_right_up_left_NoDup|].
  split; [etrans; [apply length_filter|done]|].
  split; [done|].
  intros [_ Hq]%Hin. unfold manhattan in Hq. lia.
Qed.

Lemma get_neighbors_adjacent_witness :
  get_neighbors room_field (Point.mk 2 2)
    = Ok [Point.mk 2 3; Point.mk 3 2; Point.mk 2 1; Point.mk 1 2]
  ∧ NoDup [Point.mk 2 3; Point.mk 3 2; Point.mk 2 1; Point.mk 1 2]
  ∧ (length [Point.mk 2 3; Point.mk 3 2; Point.mk 2 1; Point.mk 1 2] ≤ 4)%nat
  ∧ (∀ q, q ∈ [Point.mk 2 3; Point.mk 3 2; Point.mk 2 1; Point.mk 1 2]
          ↔ free room_field q ∧ manhattan (Point.mk 2 2) q = 1)
  ∧ Point.mk 2 2 ∉ [Point.mk 2 3; Point.mk 3 2; Point.mk 2 1; Point.mk 1 2].
Proof.
  assert (get_neighbors room_field (Point.mk 2 2)
          = Ok [Point.mk 2 3; Point.mk 3 2; Point.mk 2 1; Point.mk 1 2]) as H
    by (by vm_compute).
  split; [exact H|].
  apply (get_neighbors_adjacent room_field (Point.mk 2 2) _ H).
Defined.

(** X7: adjacency is symmetric between free cells: if [q] is yielded as a
    neighbour of [p] and [p] itself is free, then [p] is yielded as a
    neighbour of [q] whenever the neighbours of [q] can be listed. *)
Theorem get_neighbors_symmetric (self : Field) (p q : Point) (l l' : list Point) :
  free self p →
  get_neighbors self p = Ok l →
  get_neighbors self q = Ok l' →
  q ∈ l → p ∈ l'.
Proof.
  intros Hp ->%get_neighbors_Ok ->%get_neighbors_Ok.
  rewrite !list_elem_of_filter, !down_right_up_left_manhattan.
  intros [_ Hq]. split; [done|]. unfold manhattan in *. lia.
Qed.

Lemma get_neighbors_symmetric_witness :
  free room_field (Point.mk 2 2)
  ∧ get_neighbors room_field (Point.mk 2 2)
    = Ok [Point.mk 2 3; Point.mk 3 2; Point.mk 2 1; Point.mk 1 2]
  ∧ get_neighbors room_field (Point.mk 2 3)
    = Ok [Point.mk 3 3; Point.mk 2 2; Point.mk 1 3]
  ∧ Point.mk 2 3 ∈ [Point.mk 2 3; Point.mk 3 2; Point.mk 2 1; Point.mk 1 2]
  ∧ Point.mk 2 2 ∈ [Point.mk 3 3; Point.mk 2 2; Point.mk 1 3].
Proof.
  assert (free room_field (Point.mk 2 2)) as H1 by by_evaluation.
  assert (get_neighbors room_field (Point.mk 2 2)
          = Ok [Point.mk 2 3; Point.mk 3 2; Point.mk 2 1; Point.mk 1 2]) as H2
    by (by vm_compute).
  assert (get_neighbors room_field (Point.mk 2 3)
          = Ok [Point.mk 3 3; Point.mk 2 2; Point.mk 1 3]) as H3
    by (by vm_compute).
  assert (Point.mk 2 3 ∈ [Point.mk 2 3; Point.mk 3 2; Point.mk 2 1; Point.mk 1 2])
    as H4 by by_evaluation.
  split; [exact H1|]. split; [exact H2|]. split; [exact H3|]. split; [exact H4|].
  apply (get_neighbors_symmetric room_field (Point.mk 2 2) (Point.mk 2 3) _ _
           H1 H2 H3 H4).
Defined.

(** * Further properties of [get_nearest_key] *)

Lemma hops_0 (self : Field) (r p : Point) : hops self r 0 p → p = r.
Proof. by inversion 1. Qed.

Lemma hops_S_free (self : Field) (r p : Point) (n : nat) :
  doors_linked self → hops self r (S n) p → free self p ∧ p ∉ _robots self.
Proof.
  intros Hlinked Hhops. inversion Hhops as [|n' q p' _ Hedge]; subst.
  apply edge_free in Hedge as [_ Hfree]; [|done].
  split; [done|]. by destruct Hfree as (_ & _ & _ & ? & _).
Qed.

(** The path found for a robot ends on a key; it has length zero when the
    robot stands on a key, and otherwise ends at least one move away on a
    free cell no robot occupies. *)
Lemma get_nearest_key_Some (self : Field) (r : Point) (path : Path) :
  doors_linked self →
  get_nearest_key self r = Ok (Some path) →
  Path.start path = r
  ∧ Path.end_ path ∈ _keys self
  ∧ (r ∈ _keys self → Path.length path = 0 ∧ Path.end_ path = r)
  ∧ (r ∉ _keys self →
     1 ≤ Path.length path ∧ Path.end_ path ≠ r
     ∧ free self (Path.end_ path) ∧ Path.end_ path ∉ _robots self).
Proof.
  intros Hlinked Hrun.
  pose proof (get_nearest_key_sound self r Hlinked) as Hspec.
  rewrite Hrun in Hspec. destruct Hspec as (Hstart & Hend & n & Hn & Hhops & Hmin).
  split; [done|]. split; [done|]. split.
  - intros Hr. assert (n = 0)%nat as ->.
    { pose proof (Hmin r 0%nat Hr (hops_O self r)). lia. }
    split; [by rewrite Hn|]. by apply (hops_0 self).
  - intros Hr. destruct n as [|n].
    + apply hops_0 in Hhops. congruence.
    + split; [lia|]. split; [congruence|]. by apply (hops_S_free self r _ n).
Qed.

(** X8: what [get_nearest_key] returns on a field whose doors all have an
    entry in [doors_keys]: the path starts at the robot and ends on a key;
    its length is never negative, and it is zero exactly when the robot
    itself stands on a key, in which case the path ends where it starts;
    otherwise the path ends on a free cell that differs from the start
    and holds no robot. *)
Theorem get_nearest_key_path (self : Field) (r : Point) (path : Path) :
  doors_linked self →
  get_nearest_key self r = Ok (Some path) →
  Path.start path = r
  ∧ Path.end_ path ∈ _keys self
  ∧ 0 ≤ Path.length path
  ∧ (Path.length path = 0 ↔ r ∈ _keys self)
  ∧ (Path.length path = 0 ↔ Path.end_ path = r)
  ∧ (Path.end_ path ≠ r →
     free self (Path.end_ path) ∧ Path.end_ path ∉ _robots self).
Proof.
  intros Hlinked Hrun.
  destruct (get_nearest_key_Some self r path Hlinked Hrun)
    as (Hstart & Hend & Hon & Hoff).
  split; [done|]. split; [done|].
  destruct (decide (r ∈ _keys self)) as [Hr|Hr].
  - destruct (Hon Hr) as [H0 He]. split; [lia|]. split; [done|].
    split; [done|]. by intros [].
  - destruct (Hoff Hr) as (H1 & Hne & Hfree & Hrob). split; [lia|].
    split; [split; [lia|done]|]. split; [split; [lia|done]|]. done.
Qed.

Lemma get_nearest_key_path_witness :
  doors_linked fixture_field
  ∧ get_nearest_key fixture_field (Point.mk 5 1)
    = Ok (Some (Path.mk 2 (Point.mk 5 1) (Point.mk 7 1)))
  ∧ Path.start (Path.mk 2 (Point.mk 5 1) (Point.mk 7 1)) = Point.mk 5 1
  ∧ Path.end_ (Path.mk 2 (Point.mk 5 1) (Point.mk 7 1)) ∈ _keys fixture_field
  ∧ 0 ≤ Path.length (Path.mk 2 (Point.mk 5 1) (Point.mk 7 1))
  ∧ (Path.length (Path.mk 2 (Point.mk 5 1) (Point.mk 7 1)) = 0
     ↔ Point.mk 5 1 ∈ _keys fixture_field)
  ∧ (Path.length (Path.mk 2 (Point.mk 5 1) (Point.mk 7 1)) = 0
     ↔ Path.end_ (Path.mk 2 (Point.mk 5 1) (Point.mk 7 1)) = Point.mk 5 1)
  ∧ (Path.end_ (Path.mk 2 (Point.mk 5 1) (Point.mk 7 1)) ≠ Point.mk 5 1 →
     free fixture_field (Path.end_ (Path.mk 2 (Point.mk 5 1) (Point.mk 7 1)))
     ∧ Path.end_ (Path.mk 2 (Point.mk 5 1) (Point.mk 7 1))
       ∉ _robots fixture_field).
Proof.
  assert (doors_linked fixture_field) as H1 by by_evaluation.
  assert (get_nearest_key fixture_field (Point.mk 5 1)
          = Ok (Some (Path.mk 2 (Point.mk 5 1) (Point.mk 7 1)))) as H2
    by (by vm_compute).
  split; [exact H1|]. split; [exact H2|].
  apply (get_nearest_key_path fixture_field (Point.mk 5 1) _ H1 H2).
Defined.

(** * The moves behind the result of [solve] *)

(** [plays self f s]: the configuration [f] is obtained from [self] by a
    sequence of moves of total length [s], each move sending one robot of
    the current configuration to the key [get_nearest_key] finds for it
    and collecting that key on a copy. *)
Inductive plays (self : Field) : Field → Z → Prop :=
| plays_start : plays self self 0
| plays_move f s robot path f' :
    plays self f s →
    robot ∈ _robots f →
    get_nearest_key f robot = Ok (Some path) →
    collect_key (copy f) robot (Path.end_ path) = Ok f' →
    plays self f' (s + Path.length path).

Lemma bfs_loop_start (fuel : nat) (self : Field) (r : Point)
    (distance : gmap Point Z) (queue : list Point) (path : Path) :
  bfs_loop fuel self r distance queue = Ok (Some path) → Path.start path = r.
Proof.
  revert distance queue. induction fuel as [|fuel IH]; intros D Q; [done|].
  simpl. destruct Q as [|c Q]; [done|]. case_decide.
  - destruct (D !! c); [|done]. by intros [= <-].
  - destruct (get_neighbors self c) as [ns| |]; simpl; try done.
    destruct (for_each (discover c) ns (D, Q)) as [st| |]; simpl; try done.
    apply IH.
Qed.

(** What the queue and [result] of the loop stand for. *)
Definition played (self : Field) (l : loop) : Prop :=
  Forall (λ st, plays self (field st) (steps st)) (states l)
  ∧ match result l with
    | Float_inf _ => True
    | Int m => ∃ f, plays self f m ∧ _keys f = ∅
    end.

Lemma expand_played (self : Field) (state : State) (robot : Point) (l l' : loop) :
  plays self (field state) (steps state) →
  played self l →
  expand state robot l = Ok l' →
  played self l'.
Proof.
  intros Hstate [Hq Hres]. unfold expand.
  destruct (get_nearest_key (field state) robot) as [[path|]| |] eqn:Hpath;
    simpl; try done; [|by intros [= <-]].
  pose proof (bfs_loop_start _ _ _ _ _ _ Hpath) as Hstart. rewrite Hstart.
  destruct (collect_key _ robot _) as [new_field| |] eqn:Hc; simpl; try done.
  case_decide; intros [= <-]; [|done]. split; [|done]. simpl.
  apply Forall_app. split; [done|]. apply Forall_singleton. simpl.
  apply (plays_move self (field state) _ robot path); try done.
  by apply collect_key_Ok in Hc as (? & _).
Qed.

Lemma body_played (order : nat → gset Point → list Point) (self : Field)
    (n : nat) (state : State) (l l' : loop) :
  plays self (field state) (steps state) →
  played self l →
  body order n state l = Ok l' →
  played self l'.
Proof.
  intros Hstate Hl. unfold body. case_decide as Hk.
  - intros [= <-]. destruct Hl as [Hq Hres]. split; [done|]. simpl.
    assert (∃ f, plays self f (steps state) ∧ _keys f = ∅) as Hterm.
    { exists (field state). split; [done|].
      unfold keys_count in Hk. apply leibniz_equiv, size_empty_iff. lia. }
    unfold py_min. destruct (result l); [done|]. by case_decide.
  - apply (for_each_ind (expand state) (λ _ l', played self l')); [done|].
    intros done a s s' _ Hs Hexp. by apply (expand_played self state a s).
Qed.

Lemma solve_loop_played (order : nat → gset Point → list Point) (self : Field)
    (fuel n : nat) (l : loop) (m : Z) :
  played self l →
  solve_loop order fuel n l = Ok (Int m) →
  ∃ f, plays self f m ∧ _keys f = ∅.
Proof.
  revert n l. induction fuel as [|fuel IH]; intros n l Hl; [done|].
  simpl. destruct l as [[|state rest] seen r]; simpl in *.
  - intros [= ->]. by destruct Hl as [_ Hres].
  - destruct Hl as [[Hstate Hrest]%Forall_cons Hres]. simpl in *.
    destruct (body order n state _) as [l'| |] eqn:Hbody; simpl; try done.
    apply IH.
    apply (body_played order self n state (mkLoop rest seen r) l' Hstate);
      [|done].
    by split.
Qed.

(** X9: an integer returned by [solve] is the total length of a sequence
    of moves that starts from the constructed field, sends one robot at a
    time to the key [get_nearest_key] finds for it, and ends with every
    key collected. *)
Theorem solve_result_played (order : nat → gset Point → list Point)
    (fuel : nat) (data : list (list ascii)) (self : Field) (m : Z) :
  Field_init data = Ok self →
  solve order fuel data = Ok (Int m) →
  ∃ f, plays self f m ∧ _keys f = ∅.
Proof.
  intros Hinit. unfold solve. rewrite Hinit. cbn [bind].
  intros (r & Hr & [= Hfinal])%bind_Ok. rewrite final_result_id in Hfinal.
  subst r. apply (solve_loop_played order self fuel 0 (initial_loop self)); [|done].
  split; [|done]. apply Forall_singleton. constructor.
Qed.

Lemma Field_init_robots_keys (data : list (list ascii)) (self : Field) :
  Field_init data = Ok self → _robots self ## _keys self.
Proof.
  intros (_ & _ & Hk & Hr & _)%Field_init_inv p
         (c & Hc & He)%Hr (c' & Hc' & He')%Hk.
  pose proof (cells_functional data p c c' Hc Hc'). congruence.
Qed.

(** What every configuration of a play keeps from the constructed field. *)
Definition kept (self f : Field) (s : Z) : Prop :=
  (doors_keys f = doors_keys self ∧ doors f = doors self
   ∧ walls f = walls self
   ∧ x_max_value f = x_max_value self ∧ y_max_value f = y_max_value self)
  ∧ size (_robots f) = size (_robots self)
  ∧ _keys f ⊆ _keys self
  ∧ _robots f ## _keys f
  ∧ _robots f ⊆ _robots self ∪ (_keys self ∖ _keys f)
  ∧ Z.of_nat (size (_keys self)) - Z.of_nat (size (_keys f)) ≤ s.

Lemma plays_kept (data : list (list ascii)) (self f : Field) (s : Z) :
  Field_init data = Ok self → plays self f s → kept self f s.
Proof.
  intros Hinit. induction 1 as [|f s robot path f' _ IH Hrobot Hpath Hc].
  - split; [done|]. split; [done|]. split; [done|].
    split; [by apply (Field_init_robots_keys data)|].
    split; [set_solver|lia].
  - destruct IH as ((Hdk & Hd & Hw & Hx & Hy) & Hsize & Hsub & Hdisj & Hrs & Hs).
    assert (doors_linked f) as Hlinked.
    { unfold doors_linked. rewrite Hdk, Hd. by apply (Field_init_linked data). }
    destruct (get_nearest_key_Some f robot path Hlinked Hpath)
      as (_ & Hend & _ & Hoff).
    destruct Hoff as (Hlen & _ & _ & Hfree); [set_solver|].
    apply collect_key_Ok in Hc as (_ & _ & ->). unfold kept. simpl.
    split; [done|].
    split.
    { rewrite size_union by set_solver.
      rewrite size_difference by set_solver. rewrite !size_singleton.
      assert (size (_robots f) ≠ 0)%nat; [|lia].
      intros H0%size_empty_inv. set_solver. }
    split; [set_solver|]. split; [set_solver|].
    split.
    { intros p [[Hp _]%elem_of_difference|Hp%elem_of_singleton]%elem_of_union.
      - apply Hrs in Hp. set_solver.
      - subst p. apply elem_of_union. right. apply elem_of_difference.
        split; [by apply Hsub|]. set_solver. }
    rewrite size_difference by set_solver. rewrite size_singleton.
    assert (size (_keys f) ≠ 0)%nat; [|lia].
    intros H0%size_empty_inv. set_solver.
Qed.

(** X10: every configuration that a sequence of nearest-key moves reaches
    from a constructed field has the doors, walls, bounds and door table of
    that field and as many robots; its keys are keys of the field, no robot
    stands on one of them, every robot stands where a robot started or on a
    key collected since, and the moves made so far are at least as many as
    the keys collected. *)
Theorem plays_invariant (data : list (list ascii)) (self f : Field) (s : Z) :
  Field_init data = Ok self →
  plays self f s →
  (doors_keys f = doors_keys self ∧ doors f = doors self
   ∧ walls f = walls self
   ∧ x_max_value f = x_max_value self ∧ y_max_value f = y_max_value self)
  ∧ size (_robots f) = size (_robots self)
  ∧ _keys f ⊆ _keys self
  ∧ _robots f ## _keys f
  ∧ _robots f ⊆ _robots self ∪ (_keys self ∖ _keys f)
  ∧ Z.of_nat (size (_keys self)) - Z.of_nat (size (_keys f)) ≤ s.
Proof. apply plays_kept. Qed.

(** X11: an integer returned by [solve] is at least the number of keys of
    the grid: every key costs at least one move. *)
Theorem solve_at_least_keys (order : nat → gset Point → list Point)
    (fuel : nat) (data : list (list ascii)) (self : Field) (m : Z) :
  Field_init data = Ok self →
  solve order fuel data = Ok (Int m) →
  keys_count self ≤ m.
Proof.
  intros Hinit Hrun.
  assert (∃ f, plays self f m ∧ _keys f = ∅) as (f & Hf & Hk).
  { revert Hrun. unfold solve. rewrite Hinit. cbn [bind].
    intros (r & Hr & [= Hfinal])%bind_Ok. rewrite final_result_id in Hfinal.
    subst r.
    apply (solve_loop_played order self fuel 0 (initial_loop self)); [|done].
    split; [|done]. apply Forall_singleton. constructor. }
  apply (plays_kept data) in Hf as (_ & _ & _ & _ & _ & Hs); [|done].
  rewrite Hk, size_empty in Hs. unfold keys_count. lia.
Qed.

(** The fixture after its robot has collected the key [a]. *)
Definition fixture_field_a : Field :=
  Eval vm_compute in
    match collect_key (copy fixture_field) (Point.mk 5 1) (Point.mk 7 1) with
    | Ok f => f
    | _ => fixture_field
    end.

Lemma fixture_plays : plays fixture_field fixture_field_a 2.
Proof.
  change 2 with (0 + Path.length (Path.mk 2 (Point.mk 5 1) (Point.mk 7 1))).
  apply (plays_move fixture_field fixture_field 0 (Point.mk 5 1)).
  - constructor.
  - by_evaluation.
  - by vm_compute.
  - by vm_compute.
Qed.

Lemma solve_result_played_witness :
  Field_init fixture_grid = Ok fixture_field
  ∧ solve elements_order 4 fixture_grid = Ok (Int 8)
  ∧ ∃ f, plays fixture_field f 8 ∧ _keys f = ∅.
Proof.
  assert (Field_init fixture_grid = Ok fixture_field) as H1 by (by vm_compute).
  assert (solve elements_order 4 fixture_grid = Ok (Int 8)) as H2
    by (by vm_compute).
  split; [exact H1|]. split; [exact H2|].
  apply (solve_result_played elements_order 4 fixture_grid fixture_field 8 H1 H2).
Defined.

Lemma plays_invariant_witness :
  Field_init fixture_grid = Ok fixture_field
  ∧ plays fixture_field fixture_field_a 2
  ∧ (doors_keys fixture_field_a = doors_keys fixture_field
     ∧ doors fixture_field_a = doors fixture_field
     ∧ walls fixture_field_a = walls fixture_field
     ∧ x_max_value fixture_field_a = x_max_value fixture_field
     ∧ y_max_value fixture_field_a = y_max_value fixture_field)
  ∧ size (_robots fixture_field_a) = size (_robots fixture_field)
  ∧ _keys fixture_field_a ⊆ _keys fixture_field
  ∧ _robots fixture_field_a ## _keys fixture_field_a
  ∧ _robots fixture_field_a
    ⊆ _robots fixture_field ∪ (_keys fixture_field ∖ _keys fixture_field_a)
  ∧ Z.of_nat (size (_keys fixture_field))
    - Z.of_nat (size (_keys fixture_field_a)) ≤ 2.
Proof.
  assert (Field_init fixture_grid = Ok fixture_field) as H1 by (by vm_compute).
  pose proof fixture_plays as H2.
  split; [exact H1|]. split; [exact H2|].
  apply (plays_invariant fixture_grid fixture_field fixture_field_a 2 H1 H2).
Defined.

Lemma solve_at_least_keys_witness :
  Field_init fixture_grid = Ok fixture_field
  ∧ solve elements_order 4 fixture_grid = Ok (Int 8)
  ∧ keys_count fixture_field ≤ 8.
Proof.
  assert (Field_init fixture_grid = Ok fixture_field) as H1 by (by vm_compute).
  assert (solve elements_order 4 fixture_grid = Ok (Int 8)) as H2
    by (by vm_compute).
  split; [exact H1|]. split; [exact H2|].
  apply (solve_at_least_keys elements_order 4 fixture_grid fixture_field 8 H1 H2).
Defined.

(** * Termination and edge cases of [solve] *)

Lemma set_order_elements : set_order elements_order.
Proof. by intros n s. Qed.

Lemma solve_loop_value (order : nat → gset Point → list Point)
    (fuel n : nat) (l : loop) (o : nat) (v : value) :
  result l = Float_inf o →
  solve_loop order fuel n l = Ok v →
  v = Float_inf o ∨ ∃ m, v = Int m.
Proof.
  intros Hres ->%solve_loop_result. rewrite Hres.
  destruct (terminal_distances order fuel n l) as [|t ts] eqn:Hts.
  - by left.
  - right. destruct (proj2 (foldl_py_min_inf (t :: ts) o)) as (m & Hm & _);
      [done|]. by exists m.
Qed.

(** X12: on every grid the constructor accepts, whatever the order in
    which the robot sets are iterated, the loop of [solve] ends within
    [solve_fuel] iterations without raising, and [solve] returns either
    the float made by its first line or an integer that is at least the
    number of keys. *)
Theorem solve_terminates (order : nat → gset Point → list Point)
    (data : list (list ascii)) (self : Field) :
  set_order order →
  Field_init data = Ok self →
  ∃ v, (∀ fuel, (solve_fuel self ≤ fuel)%nat → solve order fuel data = Ok v)
       ∧ (v = new_float_inf ∅ ∨ ∃ m, v = Int m ∧ keys_count self ≤ m).
Proof.
  intros Hord Hinit.
  destruct (solve_returns order (solve_fuel self) data self Hord Hinit)
    as [v Hv]; [done|].
  exists v. split.
  - intros fuel Hfuel. revert Hv. unfold solve. rewrite Hinit. cbn [bind].
    intros (r & Hr & [= <-])%bind_Ok.
    by rewrite (solve_loop_more_fuel order _ fuel _ _ _ Hr Hfuel).
  - pose proof Hv as Hv'. revert Hv'. unfold solve. rewrite Hinit. cbn [bind].
    intros (r & Hr & [= Hfinal])%bind_Ok. rewrite final_result_id in Hfinal.
    subst r.
    destruct (solve_loop_value order _ 0 (initial_loop self)
                (fresh (∅ : gset nat)) v eq_refl Hr)
      as [->|[m ->]]; [by left|right].
    exists m. split; [done|].
    destruct (solve_loop_played order self (solve_fuel self) 0%nat
                (initial_loop self) m) as (f & Hf & Hk); [|done|].
    { split; [|done]. apply Forall_singleton. constructor. }
    apply (plays_kept data) in Hf as (_ & _ & _ & _ & _ & Hs); [|done].
    rewrite Hk, size_empty in Hs. unfold keys_count. lia.
Qed.

Lemma solve_terminates_witness :
  set_order elements_order
  ∧ Field_init fixture_grid = Ok fixture_field
  ∧ ∃ v, (∀ fuel, (solve_fuel fixture_field ≤ fuel)%nat →
                  solve elements_order fuel fixture_grid = Ok v)
         ∧ (v = new_float_inf ∅
            ∨ ∃ m, v = Int m ∧ keys_count fixture_field ≤ m).
Proof.
  pose proof set_order_elements as H1.
  assert (Field_init fixture_grid = Ok fixture_field) as H2 by (by vm_compute).
  split; [exact H1|]. split; [exact H2|].
  apply (solve_terminates elements_order fixture_grid fixture_field H1 H2).
Defined.

Lemma Field_init_no_robot (data : list (list ascii)) (self : Field) :
  Field_init data = Ok self → no_robot data → _robots self = ∅.
Proof.
  intros (_ & _ & _ & Hr & _)%Field_init_inv Hno.
  apply leibniz_equiv, elem_of_equiv_empty. intros p (c & Hin & Hc)%Hr.
  apply from_string_ROBOT in Hc.
  unfold no_robot in Hno. rewrite Forall_forall in Hno.
  by specialize (Hno _ Hin).
Qed.

Lemma Field_init_some_key (data : list (list ascii)) (self : Field) :
  Field_init data = Ok self → ¬ no_key data → _keys self ≠ ∅.
Proof.
  intros (_ & _ & Hk & _)%Field_init_inv Hsome Hempty.
  apply Hsome. apply Forall_forall. intros [p c] Hin. simpl.
  destruct (is_key_char c) eqn:Hc; [|done].
  assert (p ∈ _keys self) as Hp; [|by rewrite Hempty in Hp].
  apply Hk. exists c. split; [done|]. by apply from_string_KEY.
Qed.

(** X13: on an accepted grid that has a key but no robot, the loop of
    [solve] dequeues the initial node, finds no robot to move, and [solve]
    returns the float infinity made by its first line: the test
    [result is not float("inf")] compares two different objects, so the
    fallback 0 is not taken. *)
Theorem solve_no_robot (order : nat → gset Point → list Point) (fuel : nat)
    (data : list (list ascii)) (self : Field) :
  set_order order →
  Field_init data = Ok self →
  no_robot data →
  ¬ no_key data →
  (2 ≤ fuel)%nat →
  solve order fuel data = Ok (new_float_inf ∅).
Proof.
  intros Hord Hinit Hrobot Hkey Hfuel.
  apply (Field_init_no_robot data self Hinit) in Hrobot.
  apply (Field_init_some_key data self Hinit) in Hkey.
  unfold solve. rewrite Hinit. cbn [bind].
  destruct fuel as [|[|fuel]]; [lia|lia|].
  unfold initial_loop. rewrite solve_loop_cons.
  assert (order 0%nat (robots self) = []) as Hnil.
  { apply Permutation_nil_r. rewrite (Hord 0%nat (robots self)).
    unfold robots. by rewrite Hrobot, elements_empty. }
  unfold body. cbn [field]. rewrite decide_False.
  - rewrite Hnil. cbn [for_each bind]. rewrite solve_loop_nil. cbn [bind].
    by rewrite final_result_id.
  - unfold keys_count. intros H0.
    apply Hkey, leibniz_equiv, size_empty_iff. lia.
Qed.

Lemma solve_no_robot_witness :
  set_order elements_order
  ∧ Field_init robotless_grid
    = Ok (mkField ∅ {[Point.mk 1 1]} ∅ ∅
            (list_to_set [Point.mk 0 0; Point.mk 1 0; Point.mk 2 0;
                          Point.mk 0 1; Point.mk 2 1;
                          Point.mk 0 2; Point.mk 1 2; Point.mk 2 2]) 2 2)
  ∧ no_robot robotless_grid
  ∧ ¬ no_key robotless_grid
  ∧ (2 ≤ 2)%nat
  ∧ solve elements_order 2 robotless_grid = Ok (new_float_inf ∅).
Proof.
  pose proof set_order_elements as H1.
  assert (Field_init robotless_grid
          = Ok (mkField ∅ {[Point.mk 1 1]} ∅ ∅
                  (list_to_set [Point.mk 0 0; Point.mk 1 0; Point.mk 2 0;
                                Point.mk 0 1; Point.mk 2 1;
                                Point.mk 0 2; Point.mk 1 2; Point.mk 2 2]) 2 2))
    as H2 by (by vm_compute).
  assert (no_robot robotless_grid) as H3 by by_evaluation.
  assert (¬ no_key robotless_grid) as H4 by by_evaluation.
  assert (2 ≤ 2)%nat as H5 by lia.
  split; [exact H1|]. split; [exact H2|]. split; [exact H3|].
  split; [exact H4|]. split; [exact H5|].
  apply (solve_no_robot elements_order 2 robotless_grid _ H1 H2 H3 H4 H5).
Defined.

(** X14: when the grid has at most one robot, the result of [solve] does
    not depend on the order in which Python iterates over the robot
    sets. *)
Theorem solve_single_robot_order (order order' : nat → gset Point → list Point)
    (fuel : nat) (data : list (list ascii)) (self : Field) :
  set_order order →
  set_order order' →
  Field_init data = Ok self →
  (size (_robots self) ≤ 1)%nat →
  solve order fuel data = solve order' fuel data.
Proof.
  intros Hord Hord' Hinit Hs.
  rewrite (solve_lone_order order fuel data self Hord Hinit Hs).
  by rewrite (solve_lone_order order' fuel data self Hord' Hinit Hs).
Qed.

Lemma solve_single_robot_order_witness :
  set_order elements_order
  ∧ set_order (λ _ s, reverse (elements s))
  ∧ Field_init fixture_grid = Ok fixture_field
  ∧ (size (_robots fixture_field) ≤ 1)%nat
  ∧ solve elements_order 4 fixture_grid
    = solve (λ _ s, reverse (elements s)) 4 fixture_grid.
Proof.
  pose proof set_order_elements as H1.
  assert (set_order (λ _ s, reverse (elements s))) as H2
    by (intros n s; apply reverse_Permutation).
  assert (Field_init fixture_grid = Ok fixture_field) as H3 by (by vm_compute).
  assert (size (_robots fixture_field) ≤ 1)%nat as H4 by (by vm_compute).
  split; [exact H1|]. split; [exact H2|]. split; [exact H3|]. split; [exact H4|].
  apply (solve_single_robot_order elements_order (λ _ s, reverse (elements s))
           4 fixture_grid fixture_field H1 H2 H3 H4).
Defined.

(** * [check_capacity] (run.py) *)

Module Capacity.

(** The exceptions [check_capacity] can raise on a list of dicts whose
    values are strings: a missing key, or a string [strptime] rejects. *)
Inductive exn : Set :=
| KeyError
| ValueError.

Inductive outcome (A : Type) : Type :=
| Ok (a : A)
| Raise (e : exn).

Arguments Ok {A} a.
Arguments Raise {A} e.

Section CheckCapacity.

(** [datetime.strptime(s, "%Y-%m-%d").date()]: the date, as its day number
    ([date.toordinal()]; dates are only compared), or [None] when
    [strptime] raises [ValueError]. *)
Variable strptime_date : string → option Z.

(** [strptime(guest[key], "%Y-%m-%d").date()] *)
Definition parse (guest : gmap string string) (key : string) : outcome Z :=
  match guest !! key with
  | None => Raise KeyError
  | Some s =>
      match strptime_date s with
      | None => Raise ValueError
      | Some d => Ok d
      end
  end.

(** The first loop, from the guests still to visit and the events
    appended so far. *)
Fixpoint collect (guests : list (gmap string string)) (events : list (Z * Z))
  : outcome (list (Z * Z)) :=
  match guests with
  | [] => Ok events
  | guest :: guests' =>
      match parse guest "check-in" with
      | Raise e => Raise e
      | Ok check_in =>
          match parse guest "check-out" with
          | Raise e => Raise e
          | Ok check_out =>
              collect guests'
                (if decide (check_in < check_out)
                 then events ++ [(check_in, 1); (check_out, -1)]
                 else events)
          end
      end
  end.

(** The order of the sort keys [(x[0], x[1])]: tuples compare
    lexicographically. *)
Definition key_le (e1 e2 : Z * Z) : Prop :=
  e1.1 < e2.1 ∨ (e1.1 = e2.1 ∧ e1.2 ≤ e2.2).

#[global] Instance key_le_dec e1 e2 : Decision (key_le e1 e2).
Proof. unfold key_le. apply _. Defined.

(** [events.sort(key=lambda x: (x[0], x[1]))]: the key of an event is the
    event itself, so the sorted list is the one ordered arrangement of the
    events. *)
Definition sort (events : list (Z * Z)) : list (Z * Z) :=
  merge_sort key_le events.

(** The second loop, with its early [return False]. *)
Fixpoint sweep (max_capacity current_guests : Z) (events : list (Z * Z)) : bool :=
  match events with
  | [] => true
  | (_, delta) :: events' =>
      let current_guests := current_guests + delta in
      if decide (current_guests > max_capacity) then false
      else sweep max_capacity current_guests events'
  end.

Definition check_capacity (max_capacity : Z) (guests : list (gmap string string))
  : outcome bool :=
  match collect guests [] with
  | Raise e => Raise e
  | Ok events => Ok (sweep max_capacity 0 (sort events))
  end.

End CheckCapacity.

End Capacity.

#[global] Instance key_le_total : Total Capacity.key_le.
Proof. intros [a b] [c d]. unfold Capacity.key_le. simpl. lia. Qed.

#[global] Instance key_le_trans : Transitive Capacity.key_le.
Proof. intros [a b] [c d] [e f]. unfold Capacity.key_le. simpl. lia. Qed.

#[global] Instance key_le_antisymm : AntiSymm (=) Capacity.key_le.
Proof.
  intros [a b] [c d]. unfold Capacity.key_le. simpl. intros H1 H2.
  f_equal; lia.
Qed.

#[global] Instance key_le_refl : Reflexive Capacity.key_le.
Proof. intros [a b]. unfold Capacity.key_le. simpl. lia. Qed.

(** Any sorting procedure gives the list [Capacity.sort] gives. *)
Lemma sort_unique (events sorted : list (Z * Z)) :
  Sorted Capacity.key_le sorted → sorted ≡ₚ events →
  sorted = Capacity.sort events.
Proof.
  intros Hs Hp. apply (Sorted_unique Capacity.key_le); [done| |].
  - apply Sorted_merge_sort, _.
  - unfold Capacity.sort. by rewrite merge_sort_Permutation.
Qed.

(** The stay of a guest: the two dates, when both are there and parse. *)
Definition stay (strptime_date : string → option Z)
    (guest : gmap string string) (iv : Z * Z) : Prop :=
  Capacity.parse strptime_date guest "check-in" = Capacity.Ok iv.1
  ∧ Capacity.parse strptime_date guest "check-out" = Capacity.Ok iv.2.

(** The guests in the hotel during day [d]: those who have checked in by
    [d] and check out later. *)
Definition occupancy (stays : list (Z * Z)) (d : Z) : Z :=
  Z.of_nat (length (filter (λ iv, iv.1 ≤ d < iv.2) stays)).

(** The events of a list of stays, in the order the first loop appends
    them. *)
Definition events_of (stays : list (Z * Z)) : list (Z * Z) :=
  stays ≫= λ iv, if decide (iv.1 < iv.2) then [(iv.1, 1); (iv.2, -1)] else [].

Definition total (events : list (Z * Z)) : Z :=
  foldr (λ e s, e.2 + s) 0 events.

Lemma total_app (l1 l2 : list (Z * Z)) : total (l1 ++ l2) = total l1 + total l2.
Proof. induction l1 as [|e l1 IH]; simpl; [done|]. rewrite IH. lia. Qed.

Lemma total_Permutation (l1 l2 : list (Z * Z)) : l1 ≡ₚ l2 → total l1 = total l2.
Proof. induction 1; simpl; lia. Qed.

Lemma total_filter (P : Z * Z → Prop) `{∀ e, Decision (P e)} (l : list (Z * Z)) :
  total l = total (filter P l) + total (filter (λ e, ¬ P e) l).
Proof.
  induction l as [|e l IH]; simpl; [done|].
  rewrite !filter_cons. destruct (decide (P e)).
  - rewrite decide_False by tauto. simpl. lia.
  - rewrite decide_True by done. simpl. lia.
Qed.

Lemma total_bound (l : list (Z * Z)) (lo : Z) :
  Forall (λ e, lo ≤ e.2) l → 0 ≤ lo → 0 ≤ total l.
Proof. induction 1; simpl; lia. Qed.

Lemma total_negative (l : list (Z * Z)) :
  Forall (λ e, e.2 ≤ -1) l → l ≠ [] → total l ≤ -1.
Proof.
  induction 1 as [|e l He Hl IH]; [done|]. intros _. simpl.
  destruct l as [|e' l]; [simpl; lia|]. specialize (IH ltac:(done)). lia.
Qed.

Lemma collect_events (strptime_date : string → option Z)
    (guests : list (gmap string string)) (stays events : list (Z * Z)) :
  Forall2 (stay strptime_date) guests stays →
  Capacity.collect strptime_date guests events
    = Capacity.Ok (events ++ events_of stays).
Proof.
  intros Hst. revert events.
  induction Hst as [|guest [a b] guests stays [Hin Hout] _ IH]; intros events.
  - by rewrite app_nil_r.
  - simpl in Hin, Hout. cbn [Capacity.collect]. rewrite Hin, Hout, IH.
    unfold events_of. rewrite bind_cons. cbn [fst snd].
    case_decide; [|done]. by rewrite <- app_assoc.
Qed.

(** The deltas of the events dated [d] or earlier add up to the number of
    guests present during day [d]. *)
Lemma total_until (stays : list (Z * Z)) (d : Z) :
  total (filter (λ e, e.1 ≤ d) (events_of stays)) = occupancy stays d.
Proof.
  unfold occupancy, events_of. induction stays as [|[a b] stays IH]; [done|].
  rewrite bind_cons, filter_app, total_app, IH, (filter_cons _ (a, b)). simpl.
  destruct (decide (a < b)).
  - rewrite !filter_cons, filter_nil. simpl.
    repeat case_decide; simpl; lia.
  - rewrite filter_nil. case_decide; simpl; lia.
Qed.

Lemma elem_of_events_of (stays : list (Z * Z)) (e : Z * Z) :
  e ∈ events_of stays ↔
  ∃ iv, iv ∈ stays ∧ iv.1 < iv.2 ∧ (e = (iv.1, 1) ∨ e = (iv.2, -1)).
Proof.
  unfold events_of. rewrite list_elem_of_bind. split.
  - intros (iv & He & Hiv). exists iv. split; [done|].
    case_decide; [|by apply elem_of_nil in He]. split; [done|].
    set_solver.
  - intros (iv & Hiv & Hlt & He). exists iv. split; [|done].
    rewrite decide_True by done. set_solver.
Qed.

Lemma occupancy_pos (stays : list (Z * Z)) (iv : Z * Z) (d : Z) :
  iv ∈ stays → iv.1 ≤ d < iv.2 → 1 ≤ occupancy stays d.
Proof.
  intros Hin Hd. unfold occupancy.
  assert (iv ∈ filter (λ iv, iv.1 ≤ d < iv.2) stays) as Hf
    by (by apply list_elem_of_filter).
  destruct (filter _ stays); [by apply elem_of_nil in Hf|]. simpl. lia.
Qed.

Lemma sweep_prefixes (max_capacity current_guests : Z) (events : list (Z * Z)) :
  Capacity.sweep max_capacity current_guests events = true ↔
  ∀ before e after, events = before ++ e :: after →
    current_guests + total (before ++ [e]) ≤ max_capacity.
Proof.
  revert current_guests. induction events as [|[t delta] events IH];
    intros current_guests; simpl.
  - split; [|done]. intros _ before e after Heq. by destruct before.
  - case_decide as Hgt.
    + split; [done|]. intros Hall.
      specialize (Hall [] (t, delta) events eq_refl).
      unfold total in Hall. simpl in Hall. lia.
    + rewrite IH. split.
      * intros Hall [|e' before] e after Heq; simpl in Heq; simplify_eq;
          [unfold total; simpl; lia|].
        specialize (Hall before e after eq_refl).
        unfold total in *. simpl. lia.
      * intros Hall before e after ->.
        specialize (Hall ((t, delta) :: before) e after eq_refl).
        unfold total in *. simpl in Hall. lia.
Qed.

(** In a sorted list, the entries a downward closed test accepts come
    first. *)
Lemma sorted_filter_prefix (P : Z * Z → Prop) `{∀ e, Decision (P e)}
    (l : list (Z * Z)) :
  StronglySorted Capacity.key_le l →
  (∀ x y, Capacity.key_le x y → P y → P x) →
  ∃ after, l = filter P l ++ after.
Proof.
  intros Hs Hclosed. induction Hs as [|x l _ [after IH] Hx].
  - by exists [].
  - rewrite filter_cons. destruct (decide (P x)) as [HP|HP].
    + exists after. simpl. by rewrite <- IH.
    + exists (x :: l). simpl.
      assert (filter P l = []) as ->; [|done].
      destruct (filter P l) as [|y k] eqn:Hf; [done|]. exfalso. apply HP.
      assert (y ∈ filter P l) as [HPy Hy]%list_elem_of_filter
        by (rewrite Hf; by left).
      rewrite Forall_forall in Hx. by apply (Hclosed x y); [apply Hx|].
Qed.

Lemma filter_all {A : Type} (P : A → Prop) `{∀ x, Decision (P x)} (l : list A) :
  Forall P l → filter P l = l.
Proof.
  induction 1 as [|x l Hx _ IH]; [done|].
  by rewrite filter_cons_True, IH.
Qed.

Lemma filter_none {A : Type} (P : A → Prop) `{∀ x, Decision (P x)} (l : list A) :
  Forall (λ x, ¬ P x) l → filter P l = [].
Proof.
  induction 1 as [|x l Hx _ IH]; [done|].
  by rewrite filter_cons_False.
Qed.

(** The sweep over the sorted events succeeds exactly when no day with a
    guest has more guests than the capacity. *)
Lemma sweep_sorted (stays : list (Z * Z)) (max_capacity : Z) :
  Capacity.sweep max_capacity 0 (Capacity.sort (events_of stays)) = true ↔
  ∀ d, 0 < occupancy stays d → occupancy stays d ≤ max_capacity.
Proof.
  set (L := Capacity.sort (events_of stays)).
  assert (StronglySorted Capacity.key_le L) as Hs
    by (apply StronglySorted_merge_sort; apply _).
  assert (L ≡ₚ events_of stays) as Hp by apply merge_sort_Permutation.
  assert (∀ d, total (filter (λ e, e.1 ≤ d) L) = occupancy stays d) as Hocc.
  { intros d. rewrite <- total_until. apply total_Permutation. by rewrite Hp. }
  rewrite sweep_prefixes. split.
  - intros Hall d Hd.
    destruct (sorted_filter_prefix (λ e, e.1 ≤ d) L Hs) as [after Hafter].
    { intros [a x] [b y]. unfold Capacity.key_le. simpl. lia. }
    specialize (Hocc d).
    destruct (filter (λ e, e.1 ≤ d) L) as [|e before _] using rev_ind.
    { simpl in Hocc. lia. }
    rewrite <- app_assoc in Hafter. simpl in Hafter.
    specialize (Hall before e after Hafter). lia.
  - intros Hday before e after HL.
    assert (∀ x, x ∈ before → Capacity.key_le x e) as Hbefore.
    { intros x Hx. rewrite HL in Hs.
      apply (StronglySorted_app_1_elem_of _ _ _ _ _ Hs Hx). by left. }
    assert (∀ y, y ∈ after → Capacity.key_le e y) as Hafter.
    { rewrite HL in Hs. apply StronglySorted_app_1_r in Hs.
      apply StronglySorted_inv in Hs as [_ Hs]. by apply Forall_forall. }
    assert (e ∈ events_of stays) as (iv & Hiv & Hlt & He)%elem_of_events_of.
    { rewrite <- Hp, HL. set_solver. }
    assert (L = (before ++ [e]) ++ after) as HL'
      by (by rewrite <- app_assoc).
    destruct He as [->| ->].
    + pose proof (Hocc iv.1) as Ho. rewrite HL', filter_app, total_app in Ho.
      rewrite filter_all in Ho.
      2:{ apply Forall_app. split; [|by apply Forall_singleton].
          apply Forall_forall. intros [a x] Hx%Hbefore.
          unfold Capacity.key_le in Hx. simpl in *. lia. }
      assert (0 ≤ total (filter (λ e, e.1 ≤ iv.1) after)) as Hpos.
      { apply (total_bound _ 1); [|lia]. apply Forall_forall.
        intros [a x] [Ha Hx%Hafter]%list_elem_of_filter.
        unfold Capacity.key_le in Hx. simpl in *. lia. }
      pose proof (occupancy_pos stays iv iv.1 Hiv ltac:(lia)).
      specialize (Hday iv.1). lia.
    + pose proof (Hocc (iv.2 - 1)) as Ho.
      rewrite HL', filter_app, total_app in Ho.
      rewrite (filter_none _ after) in Ho.
      2:{ apply Forall_forall. intros [a x] Hx%Hafter.
          unfold Capacity.key_le in Hx. simpl in *. lia. }
      rewrite (total_filter (λ e, e.1 ≤ iv.2 - 1) (before ++ [(iv.2, -1)])).
      assert (total (filter (λ e, ¬ e.1 ≤ iv.2 - 1) (before ++ [(iv.2, -1)])) ≤ -1)
        as Hneg.
      { apply total_negative.
        - apply Forall_forall. intros [a x] [Ha Hx]%list_elem_of_filter.
          apply elem_of_app in Hx as [Hx%Hbefore|Hx%list_elem_of_singleton].
          + unfold Capacity.key_le in Hx. simpl in *. lia.
          + simplify_eq. simpl. lia.
        - rewrite filter_app, filter_cons_True by (simpl; lia).
          by intros [_ ?]%app_eq_nil. }
      pose proof (occupancy_pos stays iv (iv.2 - 1) Hiv ltac:(lia)).
      specialize (Hday (iv.2 - 1)). unfold total in *. simpl in *. lia.
Qed.

Lemma occupancy_nonneg (stays : list (Z * Z)) (d : Z) : 0 ≤ occupancy stays d.
Proof. unfold occupancy. lia. Qed.

Lemma check_capacity_sweep (strptime_date : string → option Z)
    (max_capacity : Z) (guests : list (gmap string string))
    (stays : list (Z * Z)) :
  Forall2 (stay strptime_date) guests stays →
  Capacity.check_capacity strptime_date max_capacity guests
  = Capacity.Ok (Capacity.sweep max_capacity 0 (Capacity.sort (events_of stays))).
Proof.
  intros Hst. unfold Capacity.check_capacity.
  by rewrite (collect_events strptime_date guests stays [] Hst).
Qed.

(** X15: when every guest has both dates, [check_capacity] returns a
    verdict, and the verdict is [True] exactly when on no day with at
    least one guest are there more guests than [max_capacity]; a guest is
    present from the day of check-in up to the day before check-out, and
    a guest whose check-in is not before the check-out is never present.
    For a capacity that is not negative: exactly when no day has more
    guests than [max_capacity]. *)
Theorem check_capacity_spec (strptime_date : string → option Z)
    (max_capacity : Z) (guests : list (gmap string string))
    (stays : list (Z * Z)) :
  Forall2 (stay strptime_date) guests stays →
  ∃ b, Capacity.check_capacity strptime_date max_capacity guests = Capacity.Ok b
       ∧ (b = true ↔
          ∀ d, 0 < occupancy stays d → occupancy stays d ≤ max_capacity)
       ∧ (0 ≤ max_capacity →
          (b = true ↔ ∀ d, occupancy stays d ≤ max_capacity)).
Proof.
  intros Hst. eexists. split; [by apply check_capacity_sweep|].
  split; [apply sweep_sorted|]. intros Hcap. rewrite sweep_sorted. split.
  - intros Hday d. pose proof (occupancy_nonneg stays d).
    destruct (decide (0 < occupancy stays d)); [by apply Hday|lia].
  - intros Hday d _. apply Hday.
Qed.


Lemma events_of_Permutation (stays stays' : list (Z * Z)) :
  filter (λ iv, iv.1 < iv.2) stays ≡ₚ filter (λ iv, iv.1 < iv.2) stays' →
  events_of stays ≡ₚ events_of stays'.
Proof.
  assert (∀ l, events_of l = events_of (filter (λ iv, iv.1 < iv.2) l)) as Hf.
  { unfold events_of. induction l as [|iv l IH]; [done|].
    rewrite filter_cons, bind_cons. case_decide.
    - by rewrite bind_cons, decide_True, IH.
    - by rewrite IH. }
  intros Hp. rewrite (Hf stays), (Hf stays'). unfold events_of. by rewrite Hp.
Qed.

(** X17: the verdict of [check_capacity] depends only on the stays whose
    check-in is before the check-out, and not on their order: two guest
    lists with the same such stays, in any order and with any other
    well-formed guests among them, get the same verdict. *)
Theorem check_capacity_stays (strptime_date : string → option Z)
    (max_capacity : Z) (guests guests' : list (gmap string string))
    (stays stays' : list (Z * Z)) :
  Forall2 (stay strptime_date) guests stays →
  Forall2 (stay strptime_date) guests' stays' →
  filter (λ iv, iv.1 < iv.2) stays ≡ₚ filter (λ iv, iv.1 < iv.2) stays' →
  Capacity.check_capacity strptime_date max_capacity guests
  = Capacity.check_capacity strptime_date max_capacity guests'.
Proof.
  intros Hst Hst' Hp%events_of_Permutation.
  rewrite (check_capacity_sweep _ _ _ _ Hst), (check_capacity_sweep _ _ _ _ Hst').
  do 2 f_equal. apply sort_unique.
  - apply Sorted_merge_sort, _.
  - unfold Capacity.sort. by rewrite merge_sort_Permutation.
Qed.

(** X18: a guest list that fits a capacity fits every larger one. *)
Theorem check_capacity_monotone (strptime_date : string → option Z)
    (max_capacity max_capacity' : Z) (guests : list (gmap string string)) :
  max_capacity ≤ max_capacity' →
  Capacity.check_capacity strptime_date max_capacity guests = Capacity.Ok true →
  Capacity.check_capacity strptime_date max_capacity' guests = Capacity.Ok true.
Proof.
  intros Hle. unfold Capacity.check_capacity.
  destruct (Capacity.collect strptime_date guests []) as [events|]; [|done].
  intros [= Hsweep]. f_equal. revert Hsweep. rewrite !sweep_prefixes.
  intros Hall before e after Heq. specialize (Hall before e after Heq). lia.
Qed.

(** ** Examples *)

(** A reader for zero-padded dates [YYYY-MM-DD], a form [strptime] accepts
    with ["%Y-%m-%d"]; the day number is the one of [date.toordinal()].
    The statements above hold for every reader; this one serves to run
    the definitions on examples. *)
Definition digit (c : ascii) : option Z :=
  let n := Z.of_nat (nat_of_ascii c) in
  if decide (48 ≤ n ≤ 57) then Some (n - 48) else None.

Definition is_leap (year : Z) : bool :=
  bool_decide (year mod 4 = 0 ∧ (year mod 100 ≠ 0 ∨ year mod 400 = 0)).

Definition days_in_month (year month : Z) : Z :=
  if decide (month = 2) then (if is_leap year then 29 else 28)
  else if decide (month ∈ [4; 6; 9; 11]) then 30 else 31.

Definition days_before_month (year month : Z) : Z :=
  foldr Z.add 0 (days_in_month year <$> seqZ 1 (month - 1)).

Definition toordinal (year month day : Z) : Z :=
  let y := year - 1 in
  y * 365 + y / 4 - y / 100 + y / 400 + days_before_month year month + day.

Definition iso_date (s : string) : option Z :=
  match list_ascii_of_string s with
  | [y1; y2; y3; y4; s1; m1; m2; s2; d1; d2] =>
      if Ascii.eqb s1 "-" && Ascii.eqb s2 "-" then
        y1 ← digit y1; y2 ← digit y2; y3 ← digit y3; y4 ← digit y4;
        m1 ← digit m1; m2 ← digit m2; d1 ← digit d1; d2 ← digit d2;
        let year := 1000 * y1 + 100 * y2 + 10 * y3 + y4 in
        let month := 10 * m1 + m2 in
        let day := 10 * d1 + d2 in
        if decide (1 ≤ year ∧ 1 ≤ month ≤ 12
                   ∧ 1 ≤ day ≤ days_in_month year month)
        then Some (toordinal year month day) else None
      else None
  | _ => None
  end.

Definition guest (check_in check_out : string) : gmap string string :=
  {[ "check-in"%string := check_in; "check-out"%string := check_out ]}.

Local Open Scope string_scope.

Definition sample_guests : list (gmap string string) :=
  [ guest "2021-01-10" "2021-01-15";
    guest "2021-01-12" "2021-01-20";
    guest "2021-01-15" "2021-01-18" ].

(** The same guests in another order, with one more whose stay is empty. *)
Definition shuffled_guests : list (gmap string string) :=
  [ guest "2021-01-15" "2021-01-18";
    guest "2021-02-01" "2021-02-01";
    guest "2021-01-10" "2021-01-15";
    guest "2021-01-12" "2021-01-20" ].

Local Close Scope string_scope.

Definition sample_stays : list (Z * Z) :=
  [(737800, 737805); (737802, 737810); (737805, 737808)].

Definition shuffled_stays : list (Z * Z) :=
  [(737805, 737808); (737822, 737822); (737800, 737805); (737802, 737810)].

Lemma sample_guests_stays : Forall2 (stay iso_date) sample_guests sample_stays.
Proof. repeat (constructor; [split; by vm_compute|]). constructor. Qed.

Lemma shuffled_guests_stays :
  Forall2 (stay iso_date) shuffled_guests shuffled_stays.
Proof. repeat (constructor; [split; by vm_compute|]). constructor. Qed.

Lemma check_capacity_spec_witness :
  Forall2 (stay iso_date) sample_guests sample_stays
  ∧ ∃ b, Capacity.check_capacity iso_date 2 sample_guests = Capacity.Ok b
         ∧ (b = true ↔
            ∀ d, 0 < occupancy sample_stays d → occupancy sample_stays d ≤ 2)
         ∧ (0 ≤ 2 → (b = true ↔ ∀ d, occupancy sample_stays d ≤ 2)).
Proof.
  pose proof sample_guests_stays as H.
  split; [exact H|].
  apply (check_capacity_spec iso_date 2 sample_guests sample_stays H).
Defined.

Lemma check_capacity_stays_witness :
  Forall2 (stay iso_date) sample_guests sample_stays
  ∧ Forall2 (stay iso_date) shuffled_guests shuffled_stays
  ∧ filter (λ iv, iv.1 < iv.2) sample_stays
    ≡ₚ filter (λ iv, iv.1 < iv.2) shuffled_stays
  ∧ Capacity.check_capacity iso_date 2 sample_guests
    = Capacity.check_capacity iso_date 2 shuffled_guests.
Proof.
  pose proof sample_guests_stays as H1.
  pose proof shuffled_guests_stays as H2.
  assert (filter (λ iv, iv.1 < iv.2) sample_stays
          ≡ₚ filter (λ iv, iv.1 < iv.2) shuffled_stays) as H3.
  { unfold sample_stays, shuffled_stays.
    rewrite !filter_cons, !filter_nil. simpl. solve_Permutation. }
  split; [exact H1|]. split; [exact H2|]. split; [exact H3|].
  apply (check_capacity_stays iso_date 2 sample_guests shuffled_guests
           sample_stays shuffled_stays H1 H2 H3).
Defined.

Lemma check_capacity_monotone_witness :
  2 ≤ 3
  ∧ Capacity.check_capacity iso_date 2 sample_guests = Capacity.Ok true
  ∧ Capacity.check_capacity iso_date 3 sample_guests = Capacity.Ok true.
Proof.
  assert (2 ≤ 3) as H1 by lia.
  assert (Capacity.check_capacity iso_date 2 sample_guests = Capacity.Ok true)
    as H2 by (by vm_compute).
  split; [exact H1|]. split; [exact H2|].
  apply (check_capacity_monotone iso_date 2 3 sample_guests H1 H2).
Defined.
